(** * rotImage: a shallow embedding of [rotImage.cpp]

    The program rotates one image, or every image of a directory, by an
    angle that is given on the command line, estimated from a reference
    image, or estimated per file.  This development embeds the control
    flow of [rotImage.cpp] function by function and states the properties
    of its angle resolution, its single-file path, its directory traversal
    and its exit status.

    Conventions.
    - A C++ [double] is a binary64 value of [PrimFloat]; [angle == 0.0] is
      [PrimFloat.eqb], the IEEE comparison.
    - OpenCV's image routines and the C/C++ library ([atan2],
      [std::filesystem]) are not part of the repository.  Their pure part is
      the interface [OpenCV], their stateful part (decode, encode, the
      directory tree) the interface [Platform]; the program is written over
      both.
    - Every function that performs input or output is a computation of
      [Run]: it threads the process state (the global
      [referenceImagePath], the disk, and the trace of what was decoded,
      encoded and printed so far).
    - A directory is the tree of entries its iterators enumerate; an
      increment may report an error, after which the iterator is the end
      iterator, and a directory may be one that cannot be opened (see
      [Listing]).
    - A call need not return.  The program catches no exception of
      [std::filesystem]: the constructor of [directory_iterator] and
      [create_directories] report failure by a [filesystem_error], which
      ends the process; and the warning of line 194 dereferences the end
      iterator, whose behaviour is undefined.  Both are outcomes of the
      computations that can come to them (see [Outcome]).
    - Exceptions of [cv::imread], [cv::imwrite], [is_directory] and
      [exists], and signed overflow of [int], are outside the model. *)

From Stdlib Require Import ZArith List String Ascii Bool Lia.
From Stdlib Require Import Floats.PrimFloat Floats.FloatOps Floats.SpecFloat.
From Stdlib Require Import Numbers.Cyclic.Int63.Uint63.
Import ListNotations.

Local Open Scope string_scope.
Local Open Scope list_scope.

(* ================================================================= *)
(** ** Numbers *)

Definition double : Set := float.

(** [CV_PI], OpenCV's constant, as the binary64 value the compiler picks. *)
Definition CV_PI : double := 0x1.921fb54442d18p+1%float.

(** Conversion of a C++ [int] to [double] (exact for every 32-bit value). *)
Definition double_of_int (z : Z) : double :=
  if (z <? 0)%Z
  then PrimFloat.opp (PrimFloat.of_uint63 (Uint63.of_Z (- z)))
  else PrimFloat.of_uint63 (Uint63.of_Z z).

(* ================================================================= *)
(** ** Images and geometry records *)

(** [cv::Mat]: the dimensions and the samples. *)
Record Mat : Set := mkMat { rows : Z; cols : Z; data : list Z }.

(** [cv::Mat::empty()]: no element. *)
Definition Mat_empty (m : Mat) : bool := (rows m * cols m =? 0)%Z.

(** The default-constructed [cv::Mat], which [cv::imread] returns when the
    file cannot be decoded. *)
Definition Mat_none : Mat := mkMat 0 0 [].

(** [cv::Vec4i], one detected segment [(x1, y1, x2, y2)]. *)
Record Vec4i : Set := mkVec4i { v0 : Z; v1 : Z; v2 : Z; v3 : Z }.

(** [cv::Point2f], [cv::Size2f], [cv::Rect2f], [cv::RotatedRect]: their
    [float] members are binary32 values, held here in a [double]. *)
Record Point2f : Set := mkPoint2f { pt_x : double; pt_y : double }.
Record Size2f : Set := mkSize2f { sz_width : double; sz_height : double }.
Record Rect2f : Set :=
  mkRect2f { r_x : double; r_y : double; r_width : double; r_height : double }.
Record RotatedRect : Set :=
  mkRotatedRect { rr_center : Point2f; rr_size : Size2f; rr_angle : double }.

(** [cv::Size], integer width and height. *)
Record Size : Set := mkSize { width : Z; height : Z }.

(** The 2x3 matrix of doubles that [cv::getRotationMatrix2D] returns. *)
Record Matx23 : Set :=
  mkMatx23 { m00 : double; m01 : double; m02 : double;
             m10 : double; m11 : double; m12 : double }.

(* ================================================================= *)
(** ** Paths *)

(** A path is its string, in the generic format with ['/'] as separator. *)

Definition slash : ascii := "/"%char.
Definition dot : ascii := "."%char.

(** The characters after the last occurrence of [c], or the whole list. *)
Fixpoint after_last (c : ascii) (s : list ascii) : list ascii :=
  match s with
  | [] => []
  | a :: s' =>
      if existsb (Ascii.eqb c) s' then after_last c s'
      else if Ascii.eqb a c then s' else a :: s'
  end.

(** [std::filesystem::path::filename()]. *)
Definition filename (p : string) : string :=
  string_of_list_ascii (after_last slash (list_ascii_of_string p)).

(** [std::filesystem::path::extension()]: from the last dot of the file
    name, unless the file name is ["."], [".."], has no dot, or has its
    only dot in front. *)
Definition extension (p : string) : string :=
  let f := list_ascii_of_string (filename p) in
  match f with
  | [] => ""
  | a :: f' =>
      if existsb (Ascii.eqb dot) f'
      then if string_dec (filename p) ".." then ""
           else string_of_list_ascii (dot :: after_last dot f')
      else ""
  end.

(** [operator/] of [std::filesystem::path] for a relative right operand. *)
Definition path_append (dir name : string) : string :=
  match rev (list_ascii_of_string dir) with
  | [] => name
  | c :: _ => if Ascii.eqb c slash then dir ++ name else dir ++ "/" ++ name
  end.

(* ================================================================= *)
(** ** Directory trees *)

(** What [std::filesystem::directory_iterator] enumerates.  An entry has
    its full path and, when it is a directory, the listing an iterator
    opened on it enumerates.  [LEntry e ec rest]: the iterator stands on
    [e]; [ec] is what [iter.increment(ec)] reports when it leaves [e]
    ([None]: success, the iterator moves on to [rest]; [Some msg]: an
    error.  The C++ standard, [fs.class.directory.iterator], has: "If an
    iterator of type directory_iterator reports an error or is advanced
    past the last directory element, that iterator shall become equal to
    the end iterator value"; so after an error the iterator is the end
    iterator, and [rest] holds the entries of the directory it never
    reaches).  [LUnopenable what] is a directory on which the constructor
    [directory_iterator iter(inputDir)] throws a [filesystem_error] whose
    message is [what] (a directory without read permission, say); it is
    the listing of a directory, never what is left of one. *)
Inductive Dirent : Set :=
| mkDirent (p : string) (sub : option Listing)
with Listing : Set :=
| LEnd
| LEntry (e : Dirent) (ec : option string) (rest : Listing)
| LUnopenable (what : string).

Definition d_path (e : Dirent) : string := let 'mkDirent p _ := e in p.

(** [l +++ l']: the entries of [l'] placed after those of [l]. *)
Fixpoint lapp (l l' : Listing) : Listing :=
  match l with
  | LEnd => l'
  | LEntry e ec rest => LEntry e ec (lapp rest l')
  | LUnopenable what => LUnopenable what
  end.

Infix "+++" := lapp (at level 60, right associativity).

(** Induction on a listing with a hypothesis for the listing of a
    subdirectory as well as for the rest of the level. *)
Fixpoint Listing_tree_ind (P : Listing -> Prop)
    (HEnd : P LEnd)
    (HFile : forall p ec rest, P rest -> P (LEntry (mkDirent p None) ec rest))
    (HDir : forall p sub ec rest,
        P sub -> P rest -> P (LEntry (mkDirent p (Some sub)) ec rest))
    (HUnopenable : forall what, P (LUnopenable what))
    (l : Listing) {struct l} : P l :=
  match l with
  | LEnd => HEnd
  | LEntry (mkDirent p None) ec rest =>
      HFile p ec rest (Listing_tree_ind P HEnd HFile HDir HUnopenable rest)
  | LEntry (mkDirent p (Some sub)) ec rest =>
      HDir p sub ec rest (Listing_tree_ind P HEnd HFile HDir HUnopenable sub)
                         (Listing_tree_ind P HEnd HFile HDir HUnopenable rest)
  | LUnopenable what => HUnopenable what
  end.

(* ================================================================= *)
(** ** How a call ends *)

(** A call that does not return ends the process: by an exception that
    nothing catches ([std::terminate]), [what] its message; or by an
    operation whose behaviour the C++ standard leaves undefined, after
    which nothing is known of the run. *)
Inductive Abort : Set :=
| UncaughtException (what : string)
| UndefinedBehaviour.

Inductive Outcome (A : Type) : Type :=
| Returns (a : A)
| Aborts (why : Abort).

Arguments Returns {A} a.
Arguments Aborts {A} why.

(** The value a call returned, converted by [f]. *)
Definition outcome_map {A B : Type} (f : A -> B) (r : Outcome A) : Outcome B :=
  match r with
  | Returns a => Returns (f a)
  | Aborts why => Aborts why
  end.

(* ================================================================= *)
(** ** The libraries the program is written over *)

(** The pure routines of OpenCV and libm that [rotImage.cpp] calls. *)
Class OpenCV : Type := {
  cvtColor_BGR2GRAY : Mat -> Mat;
  GaussianBlur : Mat -> Size -> double -> Mat;
  Canny : Mat -> double -> double -> Z -> Mat;
  HoughLinesP : Mat -> double -> double -> Z -> double -> double -> list Vec4i;
  atan2 : double -> double -> double;
  getRotationMatrix2D : Point2f -> double -> double -> Matx23;
  boundingRect2f : RotatedRect -> Rect2f;
  warpAffine : Mat -> Matx23 -> Size -> Mat;
  (** rounding of a [double] to binary32, and of a [float] to [int]
      ([cv::saturate_cast]) *)
  to_float32 : double -> double;
  saturate_cast_int : double -> Z
}.

(** The stateful part: the disk as [cv::imread], [cv::imwrite] and
    [std::filesystem] see and change it.  [fs_create_directories] is the
    overload without [error_code]: it returns [true] when a directory was
    created and [false] when the directory was already there, and it
    throws when the directory cannot be created.  [fs_directory_iterator]
    gives [LUnopenable] for a directory on which the constructor of the
    iterator throws. *)
Class Platform : Type := {
  Disk : Type;
  imread : Disk -> string -> Mat;
  imwrite : Disk -> string -> Mat -> bool * Disk;
  fs_is_directory : Disk -> string -> bool;
  fs_exists : Disk -> string -> bool;
  fs_create_directories : Disk -> string -> Outcome bool * Disk;
  fs_directory_iterator : Disk -> string -> Listing
}.

(* ================================================================= *)
(** ** What a run does: the trace *)

(** The lines the program prints, by the statement that prints them.  (The
    warning of line 194 is not among them: see [processDirectory].) *)
Inductive Message : Set :=
| CouldNotOpenReference (p : string)
| AngleFromReference (angle : double)
| CouldNotOpenImage (p : string)
| ErrorRotating
| FailedToWrite (p : string)
| RotatedAndSaved (p : string)
| FailedToProcess (p : string)
| Processed (p : string)
| FailedToCreateOutputDirectory (p : string)
| ErrorParsingArguments.

Inductive Event : Set :=
| Imread (p : string)
| Imwrite (p : string) (img : Mat) (ok : bool)
| Cerr (m : Message)
| Cout (m : Message).

Section Program.

Context {cv : OpenCV} {os : Platform}.

(** The state of the process: the file-level variable
    [referenceImagePath], the disk, and the events so far (oldest first). *)
Record Process : Type := mkProcess {
  referenceImagePath : string;
  disk : Disk;
  trace : list Event
}.

Definition Run (A : Type) : Type := Process -> A * Process.

Definition ret {A : Type} (a : A) : Run A := fun s => (a, s).

Definition bind {A B : Type} (m : Run A) (k : A -> Run B) : Run B :=
  fun s => let (a, s') := m s in k a s'.

Notation "x <- m ;; k" := (bind m (fun x => k))
  (at level 61, m at next level, right associativity).
Notation "m ;;; k" := (bind m (fun _ => k))
  (at level 61, right associativity).

Definition emit (e : Event) : Run unit :=
  fun s => (tt, mkProcess (referenceImagePath s) (disk s) (trace s ++ [e])).

Definition cerr (m : Message) : Run unit := emit (Cerr m).
Definition cout (m : Message) : Run unit := emit (Cout m).

Definition when (b : bool) (m : Run unit) : Run unit :=
  if b then m else ret tt.

(** A call that ends the process, and the sequence of a call that may end
    it with what follows when it returns. *)
Definition abort {A : Type} (why : Abort) : Run (Outcome A) := ret (Aborts why).

Definition bind_returned {A B : Type} (m : Run (Outcome A))
                         (k : A -> Run (Outcome B)) : Run (Outcome B) :=
  r <- m ;;
  match r with
  | Returns a => k a
  | Aborts why => ret (Aborts why)
  end.

Notation "x <~ m ;; k" := (bind_returned m (fun x => k))
  (at level 61, m at next level, right associativity).
Notation "m ;;~ k" := (bind_returned m (fun _ => k))
  (at level 61, right associativity).

Definition get_referenceImagePath : Run string :=
  fun s => (referenceImagePath s, s).

Definition set_referenceImagePath (p : string) : Run unit :=
  fun s => (tt, mkProcess p (disk s) (trace s)).

(** [cv::imread(path, cv::IMREAD_COLOR)]. *)
Definition cv_imread (p : string) : Run Mat :=
  fun s => (imread (disk s) p,
            mkProcess (referenceImagePath s) (disk s) (trace s ++ [Imread p])).

(** [cv::imwrite(path, img)]. *)
Definition cv_imwrite (p : string) (img : Mat) : Run bool :=
  fun s => let (ok, d) := imwrite (disk s) p img in
           (ok, mkProcess (referenceImagePath s) d (trace s ++ [Imwrite p img ok])).

Definition is_directory (p : string) : Run bool :=
  fun s => (fs_is_directory (disk s) p, s).

Definition exists_ (p : string) : Run bool :=
  fun s => (fs_exists (disk s) p, s).

Definition create_directories (p : string) : Run (Outcome bool) :=
  fun s => let (r, d) := fs_create_directories (disk s) p in
           (r, mkProcess (referenceImagePath s) d (trace s)).

Definition directory_iterator (p : string) : Run Listing :=
  fun s => (fs_directory_iterator (disk s) p, s).

(* ================================================================= *)
(** ** [isImageFile] (rotImage.cpp, lines 23-27) *)

Definition imageExtensions : list string :=
  [".jpg"; ".jpeg"; ".png"; ".bmp"; ".tif"; ".tiff"].

Definition isImageFile (path : string) : bool :=
  existsb (String.eqb (extension path)) imageExtensions.

(* ================================================================= *)
(** ** [determineRotationAngle] (lines 36-65) *)

(** The orientation of one segment, [atan2(line[3] - line[1], line[2] - line[0])]. *)
Definition theta_of (line : Vec4i) : double :=
  atan2 (double_of_int (v3 line - v1 line)) (double_of_int (v2 line - v0 line)).

(** The [for] loop of lines 55-59 on the pair [(angle, count)]. *)
Definition accumulate (acc : double * Z) (line : Vec4i) : double * Z :=
  let (angle, count) := acc in
  (PrimFloat.add angle (theta_of line), (count + 1)%Z).

Definition determineRotationAngle (src : Mat) : double :=
  let gray := cvtColor_BGR2GRAY src in
  let gray := GaussianBlur gray (mkSize 5 5) 0%float in
  let edges := Canny gray 50%float 150%float 3 in
  let lines := HoughLinesP edges 1%float (PrimFloat.div CV_PI 180%float)
                           100 50%float 10%float in
  let (angle, count) := fold_left accumulate lines (0%float, 0%Z) in
  let angle := if (0 <? count)%Z
               then PrimFloat.div angle (double_of_int count)
               else angle in
  PrimFloat.mul angle (PrimFloat.div 180%float CV_PI).

(* ================================================================= *)
(** ** [calculateReferenceAngle] (lines 76-90) *)

(** The result pairs the returned angle with the out-parameter
    [successful]. *)
Definition calculateReferenceAngle (referenceImagePath : string) (verbose : bool)
  : Run (double * bool) :=
  referenceImage <- cv_imread referenceImagePath ;;
  if Mat_empty referenceImage then
    cerr (CouldNotOpenReference referenceImagePath) ;;;
    ret (0%float, false)
  else
    let angle := determineRotationAngle referenceImage in
    when verbose (cout (AngleFromReference angle)) ;;;
    ret (angle, true).

(* ================================================================= *)
(** ** [rotateImage] (lines 99-109) *)

Definition rotateImage (src : Mat) (angle : double) : Mat :=
  let half (z : Z) := to_float32 (PrimFloat.div (to_float32 (double_of_int z)) 2%float) in
  let center := mkPoint2f (half (cols src)) (half (rows src)) in
  let rot := getRotationMatrix2D center angle 1%float in
  let bbox := boundingRect2f
                (mkRotatedRect (mkPoint2f 0%float 0%float)
                               (mkSize2f (to_float32 (double_of_int (cols src)))
                                         (to_float32 (double_of_int (rows src))))
                               (to_float32 angle)) in
  let dx := PrimFloat.sub (PrimFloat.div (r_width bbox) 2%float)
                          (PrimFloat.div (double_of_int (cols src)) 2%float) in
  let dy := PrimFloat.sub (PrimFloat.div (r_height bbox) 2%float)
                          (PrimFloat.div (double_of_int (rows src)) 2%float) in
  let rot := mkMatx23 (m00 rot) (m01 rot) (PrimFloat.add (m02 rot) dx)
                      (m10 rot) (m11 rot) (PrimFloat.add (m12 rot) dy) in
  warpAffine src rot (mkSize (saturate_cast_int (r_width bbox))
                             (saturate_cast_int (r_height bbox))).

(* ================================================================= *)
(** ** [processSingleImage] (lines 121-146) *)

Definition processSingleImage (inputFile outputFile : string) (angle : double)
                              (verbose : bool) : Run bool :=
  if PrimFloat.eqb angle 0%float then ret false
  else
    image <- cv_imread inputFile ;;
    if Mat_empty image then
      cerr (CouldNotOpenImage inputFile) ;;; ret false
    else
      let rotatedImage := rotateImage image angle in
      if Mat_empty rotatedImage then
        cerr ErrorRotating ;;; ret false
      else
        written <- cv_imwrite outputFile rotatedImage ;;
        if negb written then
          cerr (FailedToWrite outputFile) ;;; ret false
        else
          when verbose (cout (RotatedAndSaved outputFile)) ;;;
          ret true.

(* ================================================================= *)
(** ** [processDirectory] (lines 158-199) *)

(** Lines 168-177: the angle the entry is processed with.  With no
    reference image the angle is estimated from the entry itself, and the
    estimate replaces the local [angle] whenever the entry decodes. *)
Definition entryAngle (path : string) (angle : double) (verbose : bool)
  : Run double :=
  ref <- get_referenceImagePath ;;
  if String.eqb ref "" then
    r <- calculateReferenceAngle path verbose ;;
    let (t_angle, successful) := r in
    ret (if successful : bool then t_angle else angle)
  else ret angle.

(** Lines 164-187, the part of the loop body that handles an image entry.
    [None]: the function returns [false] (line 181); [Some a]: the body
    goes on with [a] as the value of the local [angle]. *)
Definition processEntryImage (path outputDir : string) (angle : double)
                             (verbose : bool) : Run (option double) :=
  if isImageFile path then
    let outputFilePath := path_append outputDir (filename path) in
    angle <- entryAngle path angle verbose ;;
    ok <- processSingleImage path outputFilePath angle verbose ;;
    if negb ok then
      cerr (FailedToProcess path) ;;; ret None
    else
      when verbose (cout (Processed path)) ;;; ret (Some angle)
  else ret (Some angle).

(** The argument [inputDir] is the listing that
    [directory_iterator iter(inputDir)] enumerates; the [while] loop is the
    recursion on what is left of it.  On a directory that cannot be opened
    the constructor of line 159 throws, and nothing catches the exception.
    The recursive call of line 189 is a statement: what it returns is
    dropped, but when it does not return neither does the caller.  After
    an increment that reports an error the iterator equals [end]: with
    [verbose] set, line 194 evaluates [iter->path()] on that end iterator,
    which is undefined; otherwise the loop is over and line 198 returns
    [true]. *)
Fixpoint processDirectory (inputDir : Listing) (outputDir : string) (angle : double)
                          (recursive verbose : bool) {struct inputDir}
  : Run (Outcome bool) :=
  match inputDir with
  | LUnopenable what => abort (UncaughtException what)
  | LEnd => ret (Returns true)
  | LEntry (mkDirent path sub) ec rest =>
      r <- processEntryImage path outputDir angle verbose ;;
      match r with
      | None => ret (Returns false)
      | Some angle =>
          (match sub with
           | Some subdir =>
               if recursive
               then processDirectory subdir outputDir angle true verbose
                    ;;~ ret (Returns tt)
               else ret (Returns tt)
           | None => ret (Returns tt)
           end) ;;~
          match ec with
          | None => processDirectory rest outputDir angle recursive verbose
          | Some msg =>
              if verbose then abort UndefinedBehaviour else ret (Returns true)
          end
      end
  end.

(* ================================================================= *)
(** ** [main] (lines 202-292) *)

(** The values [argparse] hands to [main] after a successful parse;
    [reference] is [Some] exactly when [--reference] was used. *)
Record Args : Set := mkArgs {
  input : string;
  output : string;
  angle : double;
  recursive : bool;
  verbose : bool;
  detect : bool;
  reference : option string
}.

(** Lines 245-266: the angle [main] holds when it starts to process. *)
Definition resolveAngle (a : Args) : Run double :=
  set_referenceImagePath (match reference a with Some r => r | None => "" end) ;;;
  ref <- get_referenceImagePath ;;
  if negb (String.eqb ref "") then
    r <- calculateReferenceAngle ref (verbose a) ;;
    let (t_angle, successful) := r in
    ret (if successful : bool then t_angle else angle a)
  else ret (angle a).

(** Lines 268-291, with [angle] the value [resolveAngle] left.  The
    results of [processDirectory] and [processSingleImage] are [bool]s
    returned from a function whose type is [int]: [true] becomes [1] and
    [false] becomes [0].  An exception of [create_directories] or of the
    traversal leaves [main] uncaught. *)
Definition dispatch (a : Args) (angle : double) : Run (Outcome Z) :=
  isdir <- is_directory (input a) ;;
  if isdir then
    present <- exists_ (output a) ;;
    created <~ (if negb present then create_directories (output a)
                else ret (Returns true)) ;;
    if negb created then
      cerr (FailedToCreateOutputDirectory (output a)) ;;; ret (Returns 1%Z)
    else
      inputDir <- directory_iterator (input a) ;;
      ok <~ processDirectory inputDir (output a) angle (recursive a) (verbose a) ;;
      ret (Returns (Z.b2z ok))
  else
    ref <- get_referenceImagePath ;;
    r <- (if PrimFloat.eqb angle 0%float && String.eqb ref "" then
            r <- calculateReferenceAngle (input a) (verbose a) ;;
            let (t_angle, successful) := r in
            ret (if negb successful then None else Some t_angle)
          else ret (Some angle)) ;;
    match r with
    | None => ret (Returns 1%Z)
    | Some angle =>
        ok <- processSingleImage (input a) (output a) angle (verbose a) ;;
        ret (Returns (Z.b2z ok))
    end.

(** [main] on what the parse of [argv] gave: [None] when
    [program.parse_args] threw. *)
Definition main (parsed : option Args) : Run (Outcome Z) :=
  match parsed with
  | None => cerr ErrorParsingArguments ;;; ret (Returns 1%Z)
  | Some a =>
      angle <- resolveAngle a ;;
      dispatch a angle
  end.

(* ================================================================= *)
(** ** The traversal with one angle, as the specification words it *)

(** Following the specification (4.3, "use that single angle for every
    processed file in the run", with the traversal of 4.4): every image
    entry is processed with the one [angle]; nothing is estimated per
    file.  The code's [processDirectory] is compared with it below; so
    that the two can be compared on every listing, a directory that cannot
    be opened and an iteration error end this traversal as they end the
    code's. *)
Fixpoint traverseWithSingleAngle (inputDir : Listing) (outputDir : string)
                                 (angle : double) (recursive verbose : bool)
                                 {struct inputDir} : Run (Outcome bool) :=
  match inputDir with
  | LUnopenable what => abort (UncaughtException what)
  | LEnd => ret (Returns true)
  | LEntry (mkDirent path sub) ec rest =>
      ok <- (if isImageFile path
             then processSingleImage path (path_append outputDir (filename path))
                                     angle verbose
             else ret true) ;;
      if negb ok then cerr (FailedToProcess path) ;;; ret (Returns false)
      else
        when (isImageFile path && verbose) (cout (Processed path)) ;;;
        ((match sub with
          | Some subdir =>
              if recursive
              then traverseWithSingleAngle subdir outputDir angle true verbose
                   ;;~ ret (Returns tt)
              else ret (Returns tt)
          | None => ret (Returns tt)
          end) ;;~
         match ec with
         | None => traverseWithSingleAngle rest outputDir angle recursive verbose
         | Some msg =>
             if verbose then abort UndefinedBehaviour else ret (Returns true)
         end)
  end.

(** The orientation of a segment as the specification words it (4.1,
    step 4, "compute its orientation as atan2(dy, dx) in radians"): for
    the segment from [(x1, y1)] to [(x2, y2)], [dx] is [x2 - x1] and [dy]
    is [y2 - y1], and [dy] is the first argument of [atan2]. *)
Definition orientation (segment : Vec4i) : double :=
  let 'mkVec4i x1 y1 x2 y2 := segment in
  let dx := (x2 - x1)%Z in
  let dy := (y2 - y1)%Z in
  atan2 (double_of_int dy) (double_of_int dx).

(** The mean orientation in degrees, as the specification words it (4.1,
    step 4): [0.0] without a segment; otherwise the sum of the segments'
    orientations, divided by their number, converted to degrees.  The
    code's [determineRotationAngle] is compared with it below. *)
Definition meanOrientationDegrees (segments : list Vec4i) : double :=
  match segments with
  | [] => 0%float
  | _ :: _ =>
      let sum := fold_left PrimFloat.add (map orientation segments) 0%float in
      let mean := PrimFloat.div sum (double_of_int (Z.of_nat (List.length segments))) in
      PrimFloat.mul mean (PrimFloat.div 180%float CV_PI)
  end.

(** The segments [determineRotationAngle] detects in [src] (lines 38-49). *)
Definition detectedSegments (src : Mat) : list Vec4i :=
  HoughLinesP
    (Canny (GaussianBlur (cvtColor_BGR2GRAY src) (mkSize 5 5) 0%float)
           50%float 150%float 3)
    1%float (PrimFloat.div CV_PI 180%float) 100 50%float 10%float.

(** The paths of the entries of one level of a listing. *)
Fixpoint topLevelPaths (l : Listing) : list string :=
  match l with
  | LEnd | LUnopenable _ => []
  | LEntry e _ rest => d_path e :: topLevelPaths rest
  end.

(** Whether a call of [imwrite] is among the events. *)
Definition hasWrite (evs : list Event) : bool :=
  existsb (fun e => match e with Imwrite _ _ _ => true | _ => false end) evs.

(** Relations between the state before and the state after a computation:
    the reference path is the same; the trace grew by events none of which
    is a call of [imwrite]. *)
Definition same_reference (s s' : Process) : Prop :=
  referenceImagePath s' = referenceImagePath s.

Definition adds_no_write (s s' : Process) : Prop :=
  exists evs, trace s' = trace s ++ evs /\ hasWrite evs = false.

(** [m] relates, by [I], every state to the state it leaves. *)
Definition preserves {A : Type} (I : Process -> Process -> Prop) (m : Run A) : Prop :=
  forall s, I s (snd (m s)).

(* ================================================================= *)
(** ** Vocabulary for the properties of a traversal *)

(** The image-file paths a traversal of [l] can come to: those of its own
    level and, in recursive mode, those of its subdirectories. *)
Fixpoint imagePaths (recursive : bool) (l : Listing) {struct l} : list string :=
  match l with
  | LEnd | LUnopenable _ => []
  | LEntry (mkDirent path sub) _ rest =>
      (if isImageFile path then [path] else [])
      ++ (match sub with
          | Some subdir => if recursive then imagePaths true subdir else []
          | None => []
          end)
      ++ imagePaths recursive rest
  end.

(** The paths of the entries the iterator stands on: those of the level up
    to the first increment that reports an error. *)
Fixpoint reachedPaths (l : Listing) : list string :=
  match l with
  | LEnd | LUnopenable _ => []
  | LEntry e ec rest =>
      d_path e :: match ec with None => reachedPaths rest | Some _ => [] end
  end.

(** No increment of the level reports an error. *)
Fixpoint errorFree (l : Listing) : bool :=
  match l with
  | LEnd | LUnopenable _ => true
  | LEntry _ ec rest =>
      match ec with None => errorFree rest | Some _ => false end
  end.

(** The listing with no entry a directory. *)
Fixpoint withoutSubdirectories (l : Listing) : Listing :=
  match l with
  | LEnd => LEnd
  | LEntry (mkDirent path _) ec rest =>
      LEntry (mkDirent path None) ec (withoutSubdirectories rest)
  | LUnopenable what => LUnopenable what
  end.

(** Every directory a traversal of [l] opens can be opened: [l] itself
    and, in recursive mode, the subdirectories. *)
Fixpoint opens (recursive : bool) (l : Listing) {struct l} : bool :=
  match l with
  | LEnd => true
  | LUnopenable _ => false
  | LEntry (mkDirent _ sub) _ rest =>
      (match sub with
       | Some subdir => if recursive then opens true subdir else true
       | None => true
       end)
      && opens recursive rest
  end.

(** Lines 188-190 in a traversal [go]: the descent into the entry when it
    is a directory and [recursive] is set.  What the call returns is
    dropped. *)
Definition descend (go : Listing -> string -> double -> bool -> bool
                         -> Run (Outcome bool))
                   (sub : option Listing) (outputDir : string) (angle : double)
                   (recursive verbose : bool) : Run (Outcome unit) :=
  match sub with
  | Some subdir =>
      if recursive
      then go subdir outputDir angle true verbose ;;~ ret (Returns tt)
      else ret (Returns tt)
  | None => ret (Returns tt)
  end.

(** The [while] loop of lines 162-197 run over the entries of [pre] only,
    as the first entries of a longer listing.  [Returns (Some a)]: every
    entry of [pre] was handled and every increment succeeded, so that the
    iterator stands on what follows [pre], the local [angle] being [a];
    [Returns None]: the call returned within [pre] (an image entry
    failed, or an increment reported an error); [Aborts]: the call ended
    within [pre] without returning. *)
Fixpoint loopThrough (pre : Listing) (outputDir : string) (angle : double)
                     (recursive verbose : bool) {struct pre}
  : Run (Outcome (option double)) :=
  match pre with
  | LUnopenable what => abort (UncaughtException what)
  | LEnd => ret (Returns (Some angle))
  | LEntry (mkDirent path sub) ec rest =>
      r <- processEntryImage path outputDir angle verbose ;;
      match r with
      | None => ret (Returns None)
      | Some angle =>
          (match sub with
           | Some subdir =>
               if recursive
               then processDirectory subdir outputDir angle true verbose
                    ;;~ ret (Returns tt)
               else ret (Returns tt)
           | None => ret (Returns tt)
           end) ;;~
          match ec with
          | None => loopThrough rest outputDir angle recursive verbose
          | Some msg =>
              if verbose then abort UndefinedBehaviour else ret (Returns None)
          end
      end
  end.




(** The trace of [s'] is the trace of [s] with events added. *)
Definition extends (s s' : Process) : Prop :=
  exists evs, trace s' = trace s ++ evs.

(** The angle [g] a decoded picture [m] may be rotated by in a traversal
    called with [angle] under the reference path [ref]: its own estimate
    when there is no reference, [angle] when there is one. *)
Definition writeAngle (ref : string) (angle : double) (m : Mat) (g : double) : Prop :=
  if String.eqb ref "" then g = determineRotationAngle m else g = angle.

(** The events of a traversal into [outputDir] over the image paths
    [paths]: a decode of one of the paths; an encode, under the file name
    of one of the paths in [outputDir], of a decoded picture rotated by
    an angle [writeAngle] allows; anything printed. *)
Definition traversalEvent (outputDir ref : string) (angle : double)
           (paths : list string) (e : Event) : Prop :=
  match e with
  | Imread p => In p paths
  | Imwrite q img _ =>
      exists (p : string) (m : Mat) (g : double),
        In p paths /\ q = path_append outputDir (filename p)
        /\ Mat_empty m = false /\ img = rotateImage m g
        /\ writeAngle ref angle m g
  | Cerr _ | Cout _ => True
  end.

(** A decode or an encode: nothing printed. *)
Definition isIO (e : Event) : Prop :=
  match e with Imread _ | Imwrite _ _ _ => True | Cerr _ | Cout _ => False end.

(** An encode, if [e] is one, is of a decoded picture rotated by [g]. *)
Definition rotatedBy (g : double) (e : Event) : Prop :=
  match e with
  | Imwrite _ img _ => exists m, Mat_empty m = false /\ img = rotateImage m g
  | _ => True
  end.

(** The segment [line] moved by [(dx, dy)]. *)
Definition shift (dx dy : Z) (line : Vec4i) : Vec4i :=
  mkVec4i (v0 line + dx) (v1 line + dy) (v2 line + dx) (v3 line + dy).

(** From [s] to [s'] the trace grew by events that all satisfy [Q]. *)
Definition emits (Q : Event -> Prop) (s s' : Process) : Prop :=
  exists evs, trace s' = trace s ++ evs /\ Forall Q evs.

End Program.

(* ================================================================= *)
(** ** A small concrete platform *)

(** Stand-ins for the libraries, on which the program can be run.  The
    image routines do not resample: a picture's [data] is read as the flat
    list of the segments drawn in it, which is what the stand-in of
    [HoughLinesP] returns; the geometry is exact at 0, 90, 180, 270 and
    360 degrees and is the geometry of angle 0 elsewhere; [atan2] is exact
    on the four axis directions and is the quotient elsewhere.  The disk
    is a list of decodable files and a list of directories.  These
    stand-ins only serve to run the control flow on concrete inputs; the
    theorems of the next part hold for every [OpenCV] and [Platform]. *)
Module Sample.

Fixpoint segments (d : list Z) : list Vec4i :=
  match d with
  | a :: b :: c :: e :: d' => mkVec4i a b c e :: segments d'
  | _ => []
  end.

Definition axis_atan2 (y x : double) : double :=
  if PrimFloat.eqb y 0%float then
    if PrimFloat.ltb x 0%float then CV_PI else 0%float
  else if PrimFloat.eqb x 0%float then
    if PrimFloat.ltb y 0%float
    then PrimFloat.opp (PrimFloat.div CV_PI 2%float)
    else PrimFloat.div CV_PI 2%float
  else PrimFloat.div y x.

(** Cosine and sine of an angle in degrees. *)
Definition cos_sin (angle : double) : double * double :=
  if PrimFloat.eqb angle 90%float then (0%float, 1%float)
  else if PrimFloat.eqb angle 180%float then (PrimFloat.opp 1%float, 0%float)
  else if PrimFloat.eqb angle 270%float then (0%float, PrimFloat.opp 1%float)
  else (1%float, 0%float).

Definition quarter_matrix (center : Point2f) (angle scale : double) : Matx23 :=
  let (c, s) := cos_sin angle in
  let alpha := PrimFloat.mul scale c in
  let beta := PrimFloat.mul scale s in
  mkMatx23 alpha beta
           (PrimFloat.sub (PrimFloat.mul (PrimFloat.sub 1%float alpha) (pt_x center))
                          (PrimFloat.mul beta (pt_y center)))
           (PrimFloat.opp beta) alpha
           (PrimFloat.add (PrimFloat.mul beta (pt_x center))
                          (PrimFloat.mul (PrimFloat.sub 1%float alpha) (pt_y center))).

(** [std::min] and [std::max]. *)
Definition fmin (a b : double) : double := if PrimFloat.ltb b a then b else a.
Definition fmax (a b : double) : double := if PrimFloat.ltb a b then b else a.

(** The box around the four corners of the rotated rectangle, the corners
    computed from the cosine and the sine as [cv::RotatedRect::points]
    computes them: with [a] half the sine and [b] half the cosine, the
    first two are [(cx - a h - b w, cy + b h - a w)] and
    [(cx + a h - b w, cy - b h - a w)], the other two their reflections
    in the centre. *)
Definition quarter_box (r : RotatedRect) : Rect2f :=
  let (c, s) := cos_sin (rr_angle r) in
  let b := PrimFloat.mul c 0.5%float in
  let a := PrimFloat.mul s 0.5%float in
  let cx := pt_x (rr_center r) in
  let cy := pt_y (rr_center r) in
  let w := sz_width (rr_size r) in
  let h := sz_height (rr_size r) in
  let x0 := PrimFloat.sub (PrimFloat.sub cx (PrimFloat.mul a h)) (PrimFloat.mul b w) in
  let y0 := PrimFloat.sub (PrimFloat.add cy (PrimFloat.mul b h)) (PrimFloat.mul a w) in
  let x1 := PrimFloat.sub (PrimFloat.add cx (PrimFloat.mul a h)) (PrimFloat.mul b w) in
  let y1 := PrimFloat.sub (PrimFloat.sub cy (PrimFloat.mul b h)) (PrimFloat.mul a w) in
  let x2 := PrimFloat.sub (PrimFloat.mul 2%float cx) x0 in
  let y2 := PrimFloat.sub (PrimFloat.mul 2%float cy) y0 in
  let x3 := PrimFloat.sub (PrimFloat.mul 2%float cx) x1 in
  let y3 := PrimFloat.sub (PrimFloat.mul 2%float cy) y1 in
  let xmin := fmin (fmin (fmin x0 x1) x2) x3 in
  let ymin := fmin (fmin (fmin y0 y1) y2) y3 in
  let xmax := fmax (fmax (fmax x0 x1) x2) x3 in
  let ymax := fmax (fmax (fmax y0 y1) y2) y3 in
  mkRect2f xmin ymin (PrimFloat.sub xmax xmin) (PrimFloat.sub ymax ymin).

(** The integer nearest to a finite [double], halves upwards. *)
Definition round (f : double) : Z :=
  match Prim2SF f with
  | S754_finite s m e =>
      let z := if (0 <=? e)%Z then (Z.pos m * 2 ^ e)%Z
               else ((Z.pos m + 2 ^ (- e - 1)) / 2 ^ (- e))%Z in
      if s then (- z)%Z else z
  | _ => 0%Z
  end.

Definition canvas (src : Mat) (M : Matx23) (dsize : Size) : Mat :=
  mkMat (height dsize) (width dsize) (data src).

Definition opencv : OpenCV := {|
  cvtColor_BGR2GRAY := fun m => m;
  GaussianBlur := fun m _ _ => m;
  Canny := fun m _ _ _ => m;
  HoughLinesP := fun m _ _ _ _ _ => segments (data m);
  atan2 := axis_atan2;
  getRotationMatrix2D := quarter_matrix;
  boundingRect2f := quarter_box;
  warpAffine := canvas;
  to_float32 := fun x => x;
  saturate_cast_int := round
|}.

Record volume : Set := mkDisk {
  files : list (string * Mat);
  dirs : list (string * Listing)
}.

Fixpoint lookup {A : Type} (p : string) (l : list (string * A)) : option A :=
  match l with
  | [] => None
  | (q, a) :: l' => if String.eqb p q then Some a else lookup p l'
  end.

Definition read_file (d : volume) (p : string) : Mat :=
  match lookup p (files d) with Some m => m | None => Mat_none end.

(** Encoding succeeds for the extensions that have an encoder. *)
Definition write_file (d : volume) (p : string) (img : Mat) : bool * volume :=
  if existsb (String.eqb (extension p)) [".jpg"; ".jpeg"; ".png"; ".bmp"; ".tif"; ".tiff"]
  then (true, mkDisk ((p, img) :: files d) (dirs d))
  else (false, d).

Definition is_dir (d : volume) (p : string) : bool :=
  match lookup p (dirs d) with Some _ => true | None => false end.

Definition is_present (d : volume) (p : string) : bool :=
  match lookup p (files d), lookup p (dirs d) with
  | None, None => false
  | _, _ => true
  end.

(** A directory that is there is left alone; one with the empty name
    cannot be created; any other is created. *)
Definition make_dirs (d : volume) (p : string) : Outcome bool * volume :=
  if is_dir d p then (Returns false, d)
  else if String.eqb p ""
       then (Aborts (UncaughtException "cannot create directories"), d)
       else (Returns true, mkDisk (files d) ((p, LEnd) :: dirs d)).

Definition open_dir (d : volume) (p : string) : Listing :=
  match lookup p (dirs d) with Some l => l | None => LEnd end.

Definition platform : Platform := {|
  Disk := volume;
  imread := read_file;
  imwrite := write_file;
  fs_is_directory := is_dir;
  fs_exists := is_present;
  fs_create_directories := make_dirs;
  fs_directory_iterator := open_dir
|}.

(** The program on this platform. *)
Definition State : Type := @Process platform.

Definition start (d : volume) : State := @mkProcess platform "" d [].

Definition run_main (a : Args) (d : volume) : Outcome Z * State :=
  @main opencv platform (Some a) (start d).

(** A run of a traversal started under the reference path ["ref.png"]. *)
Definition under_reference (d : volume) : State :=
  @mkProcess platform "ref.png" d [].

(** Pictures: one without a segment, one with a single vertical segment. *)
Definition blank : Mat := mkMat 2 3 [].
Definition upright : Mat := mkMat 4 6 [0; 0; 0; 3]%Z.

(** A disk with the one picture ["in.png"]; there is no ["ref.png"]. *)
Definition one_file : volume := mkDisk [("in.png", blank)] [].

(** [rotImage -i in.png -o out.png -a 90], without and with
    [-ref ref.png]. *)
Definition rotate_90 : Args :=
  mkArgs "in.png" "out.png" 90%float false false false None.
Definition rotate_90_ref : Args :=
  mkArgs "in.png" "out.png" 90%float false false false (Some "ref.png").

(** A directory ["photos"] with the one picture ["a.png"], and an output
    directory; [rotImage -i photos -o out -a <angle>]. *)
Definition album (img : Mat) : volume :=
  mkDisk [("photos/a.png", img)]
         [("photos", LEntry (mkDirent "photos/a.png" None) None LEnd);
          ("out", LEnd)].
Definition album_args (a : double) (verbose : bool) : Args :=
  mkArgs "photos" "out" a false verbose false None.

Definition ok_after : Listing :=
  LEntry (mkDirent "photos/ok.png" None) None LEnd.



(** A listing whose iterator reports an error when it leaves the first
    entry, and the same listing read without error. *)
Definition listing_of (ec : option string) : Listing :=
  LEntry (mkDirent "photos/notes.txt" None) ec
         (LEntry (mkDirent "photos/b.png" None) None LEnd).
Definition b_disk : volume := mkDisk [("photos/b.png", blank)] [].

(** A listing whose first picture does not decode. *)
Definition bad_first : Listing :=
  LEntry (mkDirent "photos/bad.png" None) None LEnd.
Definition good_after : Listing :=
  LEntry (mkDirent "photos/good.png" None) None LEnd.
Definition good_disk : volume := mkDisk [("photos/good.png", blank)] [].

(** The state under the reference path once ["photos/good.png"] has been
    rotated by [90], and that state once ["photos/bad.png"] has failed to
    decode. *)
Definition good_done : State :=
  @mkProcess platform "ref.png"
    (mkDisk [("out/good.png", @rotateImage opencv blank 90%float);
             ("photos/good.png", blank)] [])
    [Imread "photos/good.png";
     Imwrite "out/good.png" (@rotateImage opencv blank 90%float) true].
Definition bad_undecoded : State :=
  @mkProcess platform "ref.png" (disk good_done)
    (trace good_done ++ [Imread "photos/bad.png";
                         Cerr (CouldNotOpenImage "photos/bad.png")]).

(** The picture [upright] with its segment elsewhere. *)
Definition moved : Mat := mkMat 4 6 [5; 7; 5; 10]%Z.

(** The disk [one_file] with a reference picture that decodes, and
    [rotImage -i in.png -o out.png -a 45 -ref ref.png]. *)
Definition with_reference : volume :=
  mkDisk [("in.png", blank); ("ref.png", upright)] [].
Definition rotate_45_ref : Args :=
  mkArgs "in.png" "out.png" 45%float false false false (Some "ref.png").

(** [rotImage -i in.png -o out.png]: no angle, no reference. *)
Definition estimate_args : Args :=
  mkArgs "in.png" "out.png" 0%float false false false None.

(** [rotImage -i photos -o <empty> -a 90]: the output directory has the
    empty name, which cannot be created. *)
Definition no_output_args : Args :=
  mkArgs "photos" "" 90%float false false false None.

(** A listing without an image file: a text file, and a subdirectory that
    holds a file without extension. *)
Definition notes_only : Listing :=
  LEntry (mkDirent "photos/notes.txt" None) None
         (LEntry (mkDirent "photos/sub"
                    (Some (LEntry (mkDirent "photos/sub/readme" None) None LEnd)))
                 None LEnd).

End Sample.

(* ================================================================= *)
(** * Properties *)

(** Unfolds the plumbing of [Run]. *)
Ltac run_unfold :=
  unfold bind, ret, when, cerr, cout, emit, cv_imread, cv_imwrite,
    get_referenceImagePath, set_referenceImagePath, is_directory, exists_,
    create_directories, directory_iterator in *.

(** Reassociates a trace so that it reads [old ++ new events]. *)
Ltac trace_norm := repeat rewrite <- app_assoc; simpl app.

Section Properties.

Context {cv : OpenCV} {os : Platform}.

(* ----------------------------------------------------------------- *)
(** ** The estimator *)

Lemma fold_accumulate (lines : list Vec4i) (a : double) (c : Z) :
  fold_left accumulate lines (a, c)
  = (fold_left PrimFloat.add (map theta_of lines) a,
     (c + Z.of_nat (List.length lines))%Z).
Proof.
  revert a c; induction lines as [|line lines IH]; intros a c.
  - simpl. now rewrite Z.add_0_r.
  - cbn [fold_left map List.length accumulate]. rewrite IH.
    f_equal. lia.
Qed.

(** The code's [line[3] - line[1]] and [line[2] - line[0]] are the
    specification's [dy] and [dx], in that order. *)
Lemma theta_of_orientation (line : Vec4i) : theta_of line = orientation line.
Proof. destruct line as [x1 y1 x2 y2]. reflexivity. Qed.

(** C6.  [determineRotationAngle] is a total function of the image: on
    every image it returns the mean orientation of the detected segments
    in degrees (the orientations [atan2(dy, dx)], with [dy = y2 - y1] and
    [dx = x2 - x1], summed, divided by their number, times
    [180 / CV_PI]), and it returns exactly [0.0] when no segment is
    detected. *)
Theorem determineRotationAngle_is_mean_orientation :
  forall src : Mat,
    determineRotationAngle src = meanOrientationDegrees (detectedSegments src)
    /\ (detectedSegments src = [] -> determineRotationAngle src = 0%float).
Proof.
  intro src.
  assert (E : determineRotationAngle src
              = meanOrientationDegrees (detectedSegments src)).
  { unfold determineRotationAngle. fold (detectedSegments src).
    rewrite fold_accumulate.
    destruct (detectedSegments src) as [|line lines].
    - reflexivity.
    - unfold meanOrientationDegrees.
      replace (0 <? 0 + Z.of_nat (List.length (line :: lines)))%Z with true
        by (symmetry; apply Z.ltb_lt; cbn [List.length]; lia).
      rewrite Z.add_0_l.
      rewrite (map_ext theta_of orientation theta_of_orientation).
      reflexivity. }
  split; [exact E|].
  intro H. rewrite E, H. reflexivity.
Qed.

(* ----------------------------------------------------------------- *)
(** ** The canvas of a rotation *)


(* ----------------------------------------------------------------- *)
(** ** The single-file path *)

Lemma processSingleImage_zero inputFile outputFile angle verbose (s : Process) :
  PrimFloat.eqb angle 0%float = true ->
  processSingleImage inputFile outputFile angle verbose s = (false, s).
Proof. intro H. unfold processSingleImage. now rewrite H. Qed.

Lemma processSingleImage_decodes inputFile outputFile angle verbose (s : Process) :
  PrimFloat.eqb angle 0%float = false ->
  exists evs,
    trace (snd (processSingleImage inputFile outputFile angle verbose s))
    = trace s ++ Imread inputFile :: evs.
Proof.
  intro H. unfold processSingleImage. rewrite H. run_unfold.
  destruct (Mat_empty (imread (disk s) inputFile)).
  { cbn. trace_norm. eauto. }
  destruct (Mat_empty (rotateImage (imread (disk s) inputFile) angle)).
  { cbn. trace_norm. eauto. }
  cbn. destruct (imwrite _ _ _) as [[|] d]; cbn.
  - destruct verbose; cbn; trace_norm; eauto.
  - trace_norm; eauto.
Qed.

Lemma processSingleImage_success inputFile outputFile angle verbose (s : Process) :
  PrimFloat.eqb angle 0%float = false ->
  Mat_empty (imread (disk s) inputFile) = false ->
  Mat_empty (rotateImage (imread (disk s) inputFile) angle) = false ->
  fst (imwrite (disk s) outputFile (rotateImage (imread (disk s) inputFile) angle))
  = true ->
  processSingleImage inputFile outputFile angle verbose s
  = (true,
     mkProcess (referenceImagePath s)
       (snd (imwrite (disk s) outputFile
                     (rotateImage (imread (disk s) inputFile) angle)))
       (trace s ++ Imread inputFile
          :: Imwrite outputFile (rotateImage (imread (disk s) inputFile) angle) true
          :: (if verbose then [Cout (RotatedAndSaved outputFile)] else []))).
Proof.
  intros Hz Hd Hr Hw. unfold processSingleImage. rewrite Hz. run_unfold.
  rewrite Hd, Hr. cbn.
  destruct (imwrite _ _ _) as [ok d]. cbn in Hw. subst ok. cbn.
  destruct verbose; cbn; trace_norm; reflexivity.
Qed.

(** C4.  [processSingleImage] returns [false] at once, the state
    untouched (nothing decoded, nothing written), when [angle == 0.0];
    for every other angle it calls [imread] on the input, and when the
    decoded and the rotated image are not empty and [imwrite] succeeds it
    returns [true] having written the rotated image to the output path.
    [360.0] is such an other angle. *)
Theorem processSingleImage_short_circuits_exactly_at_zero :
  forall (inputFile outputFile : string) (angle : double) (verbose : bool)
         (s : Process),
    (PrimFloat.eqb angle 0%float = true ->
       processSingleImage inputFile outputFile angle verbose s = (false, s))
    /\ (PrimFloat.eqb angle 0%float = false ->
          (exists evs,
              trace (snd (processSingleImage inputFile outputFile angle verbose s))
              = trace s ++ Imread inputFile :: evs)
          /\ (let image := imread (disk s) inputFile in
              let rotatedImage := rotateImage image angle in
              Mat_empty image = false ->
              Mat_empty rotatedImage = false ->
              fst (imwrite (disk s) outputFile rotatedImage) = true ->
              processSingleImage inputFile outputFile angle verbose s
              = (true,
                 mkProcess (referenceImagePath s)
                   (snd (imwrite (disk s) outputFile rotatedImage))
                   (trace s ++ Imread inputFile
                      :: Imwrite outputFile rotatedImage true
                      :: (if verbose then [Cout (RotatedAndSaved outputFile)]
                          else [])))))
    /\ PrimFloat.eqb 360%float 0%float = false.
Proof.
  intros. split; [|split].
  - apply processSingleImage_zero.
  - intro H. split.
    + now apply processSingleImage_decodes.
    + cbv zeta. now apply processSingleImage_success.
  - reflexivity.
Qed.

(* ----------------------------------------------------------------- *)
(** ** The loop body, unfolded *)

Lemma processDirectory_entry path sub ec rest outputDir angle recursive verbose :
  processDirectory (LEntry (mkDirent path sub) ec rest) outputDir angle
                   recursive verbose
  = bind (processEntryImage path outputDir angle verbose)
      (fun r =>
         match r with
         | None => ret (Returns false)
         | Some angle =>
             bind_returned (descend processDirectory sub outputDir angle
                                    recursive verbose)
               (fun _ =>
                  match ec with
                  | None => processDirectory rest outputDir angle recursive verbose
                  | Some msg =>
                      if verbose then abort UndefinedBehaviour
                      else ret (Returns true)
                  end)
         end).
Proof. reflexivity. Qed.

Lemma loopThrough_entry path sub ec rest outputDir angle recursive verbose :
  loopThrough (LEntry (mkDirent path sub) ec rest) outputDir angle
              recursive verbose
  = bind (processEntryImage path outputDir angle verbose)
      (fun r =>
         match r with
         | None => ret (Returns None)
         | Some angle =>
             bind_returned (descend processDirectory sub outputDir angle
                                    recursive verbose)
               (fun _ =>
                  match ec with
                  | None => loopThrough rest outputDir angle recursive verbose
                  | Some msg =>
                      if verbose then abort UndefinedBehaviour
                      else ret (Returns None)
                  end)
         end).
Proof. reflexivity. Qed.

Lemma traverseWithSingleAngle_entry path sub ec rest outputDir angle recursive verbose :
  traverseWithSingleAngle (LEntry (mkDirent path sub) ec rest) outputDir angle
                          recursive verbose
  = bind (if isImageFile path
          then processSingleImage path (path_append outputDir (filename path))
                                  angle verbose
          else ret true)
      (fun ok =>
         if negb ok
         then bind (cerr (FailedToProcess path)) (fun _ => ret (Returns false))
         else
           bind (when (isImageFile path && verbose) (cout (Processed path)))
             (fun _ =>
                bind_returned (descend traverseWithSingleAngle sub outputDir angle
                                       recursive verbose)
                  (fun _ =>
                     match ec with
                     | None => traverseWithSingleAngle rest outputDir angle
                                                       recursive verbose
                     | Some msg =>
                         if verbose then abort UndefinedBehaviour
                         else ret (Returns true)
                     end))).
Proof. reflexivity. Qed.

(* ----------------------------------------------------------------- *)
(** ** What every step of a run preserves *)

(** A relation between the state before and after that holds across
    [ret] and is transitive holds across any computation built with
    [bind] from steps across which it holds. *)
Section Preserved.

Variable I : Process -> Process -> Prop.
Hypothesis I_refl : forall s, I s s.
Hypothesis I_trans : forall s1 s2 s3, I s1 s2 -> I s2 s3 -> I s1 s3.

Lemma preserves_ret {A : Type} (a : A) : preserves I (ret a).
Proof. intro s. apply I_refl. Qed.

Lemma preserves_bind {A B : Type} (m : Run A) (k : A -> Run B) :
  preserves I m -> (forall a, preserves I (k a)) -> preserves I (bind m k).
Proof.
  intros Hm Hk s. unfold bind. specialize (Hm s).
  destruct (m s) as [a s']. cbn in Hm.
  eapply I_trans; [exact Hm | apply Hk].
Qed.

Lemma preserves_when (b : bool) (m : Run unit) :
  preserves I m -> preserves I (when b m).
Proof. intro H. destruct b; [exact H | apply preserves_ret]. Qed.

Lemma preserves_bind_returned {A B : Type} (m : Run (Outcome A))
      (k : A -> Run (Outcome B)) :
  preserves I m -> (forall a, preserves I (k a)) ->
  preserves I (bind_returned m k).
Proof.
  intros Hm Hk. unfold bind_returned. apply preserves_bind; [exact Hm|].
  intros [a|why]; [apply Hk | apply preserves_ret].
Qed.

Lemma preserves_descend go sub outputDir angle recursive verbose :
  (forall subdir, sub = Some subdir ->
     preserves I (go subdir outputDir angle true verbose)) ->
  preserves I (descend go sub outputDir angle recursive verbose).
Proof.
  intro H. unfold descend.
  destruct sub as [subdir|]; [destruct recursive|]; try apply preserves_ret.
  apply preserves_bind_returned; [now apply H | intro; apply preserves_ret].
Qed.

Lemma preserves_tail {A : Type} (ec : option string) (verbose : bool) (a : A)
      (k : Run (Outcome A)) :
  preserves I k ->
  preserves I (match ec with
             | None => k
             | Some msg =>
                 if verbose then abort UndefinedBehaviour else ret (Returns a)
             end).
Proof.
  intro Hk. destruct ec; [|exact Hk]. destruct verbose; apply preserves_ret.
Qed.

Hypothesis I_emit_cerr : forall m, preserves I (cerr m).
Hypothesis I_emit_cout : forall m, preserves I (cout m).
Hypothesis I_imread : forall p, preserves I (cv_imread p).
Hypothesis I_get : preserves I get_referenceImagePath.

Lemma preserves_calculateReferenceAngle path verbose :
  preserves I (calculateReferenceAngle path verbose).
Proof.
  unfold calculateReferenceAngle.
  apply preserves_bind; [apply I_imread|]. intro img.
  destruct (Mat_empty img).
  - apply preserves_bind; [apply I_emit_cerr | intro; apply preserves_ret].
  - apply preserves_bind; [|intro; apply preserves_ret].
    apply preserves_when, I_emit_cout.
Qed.

Lemma preserves_entryAngle path angle verbose :
  preserves I (entryAngle path angle verbose).
Proof.
  unfold entryAngle. apply preserves_bind; [apply I_get|]. intro ref.
  destruct (String.eqb ref ""); [|apply preserves_ret].
  apply preserves_bind; [apply preserves_calculateReferenceAngle|].
  intros [t ok]. apply preserves_ret.
Qed.

Lemma preserves_processSingleImage_zero inputFile outputFile angle verbose :
  PrimFloat.eqb angle 0%float = true ->
  preserves I (processSingleImage inputFile outputFile angle verbose).
Proof.
  intros H s. rewrite (processSingleImage_zero _ _ _ _ s H). apply I_refl.
Qed.

(** With the angle [0.0] the traversal with one angle preserves [I]
    whatever [imwrite] does: it never gets to encode. *)
Lemma preserves_traverse_zero angle :
  PrimFloat.eqb angle 0%float = true ->
  forall l outputDir recursive verbose,
    preserves I (traverseWithSingleAngle l outputDir angle recursive verbose).
Proof.
  intros Hz l outputDir.
  induction l as [|p ec rest IHrest|p sub ec rest IHsub IHrest|what]
    using Listing_tree_ind; intros recursive verbose.
  - apply preserves_ret.
  - rewrite traverseWithSingleAngle_entry.
    apply preserves_bind.
    { destruct (isImageFile p);
        [now apply preserves_processSingleImage_zero | apply preserves_ret]. }
    intros [|]; cbn [negb].
    + apply preserves_bind; [apply preserves_when, I_emit_cout|]. intros _.
      apply preserves_bind_returned; [apply preserves_descend; discriminate|].
      intros _. apply preserves_tail, IHrest.
    + apply preserves_bind; [apply I_emit_cerr | intro; apply preserves_ret].
  - rewrite traverseWithSingleAngle_entry.
    apply preserves_bind.
    { destruct (isImageFile p);
        [now apply preserves_processSingleImage_zero | apply preserves_ret]. }
    intros [|]; cbn [negb].
    + apply preserves_bind; [apply preserves_when, I_emit_cout|]. intros _.
      apply preserves_bind_returned.
      { apply preserves_descend. intros subdir E. injection E as <-.
        apply IHsub. }
      intros _. apply preserves_tail, IHrest.
    + apply preserves_bind; [apply I_emit_cerr | intro; apply preserves_ret].
  - apply preserves_ret.
Qed.

Hypothesis I_imwrite : forall p img, preserves I (cv_imwrite p img).

Lemma preserves_processSingleImage inputFile outputFile angle verbose :
  preserves I (processSingleImage inputFile outputFile angle verbose).
Proof.
  unfold processSingleImage. destruct (PrimFloat.eqb angle 0%float).
  { apply preserves_ret. }
  apply preserves_bind; [apply I_imread|]. intro image.
  destruct (Mat_empty image).
  { apply preserves_bind; [apply I_emit_cerr | intro; apply preserves_ret]. }
  destruct (Mat_empty (rotateImage image angle)).
  { apply preserves_bind; [apply I_emit_cerr | intro; apply preserves_ret]. }
  apply preserves_bind; [apply I_imwrite|]. intros [|]; cbn [negb].
  - apply preserves_bind; [apply preserves_when, I_emit_cout|].
    intro; apply preserves_ret.
  - apply preserves_bind; [apply I_emit_cerr | intro; apply preserves_ret].
Qed.

Lemma preserves_processEntryImage path outputDir angle verbose :
  preserves I (processEntryImage path outputDir angle verbose).
Proof.
  unfold processEntryImage. destruct (isImageFile path); [|apply preserves_ret].
  apply preserves_bind; [apply preserves_entryAngle|]. intro a.
  apply preserves_bind; [apply preserves_processSingleImage|]. intros [|]; cbn [negb].
  - apply preserves_bind; [apply preserves_when, I_emit_cout|].
    intro; apply preserves_ret.
  - apply preserves_bind; [apply I_emit_cerr | intro; apply preserves_ret].
Qed.

Lemma preserves_processDirectory l :
  forall outputDir angle recursive verbose,
    preserves I (processDirectory l outputDir angle recursive verbose).
Proof.
  induction l as [|p ec rest IHrest|p sub ec rest IHsub IHrest|what]
    using Listing_tree_ind; intros outputDir angle recursive verbose.
  - apply preserves_ret.
  - rewrite processDirectory_entry.
    apply preserves_bind; [apply preserves_processEntryImage|].
    intros [a|]; [|apply preserves_ret].
    apply preserves_bind_returned; [apply preserves_descend; discriminate|].
    intros _. apply preserves_tail, IHrest.
  - rewrite processDirectory_entry.
    apply preserves_bind; [apply preserves_processEntryImage|].
    intros [a|]; [|apply preserves_ret].
    apply preserves_bind_returned.
    { apply preserves_descend. intros subdir E. injection E as <-.
      apply IHsub. }
    intros _. apply preserves_tail, IHrest.
  - apply preserves_ret.
Qed.

End Preserved.

(* ----------------------------------------------------------------- *)
(** ** Two instances: the reference path, and the absence of writes *)

Lemma adds_no_write_refl s : adds_no_write s s.
Proof. exists []. now rewrite app_nil_r. Qed.

Lemma adds_no_write_trans s1 s2 s3 :
  adds_no_write s1 s2 -> adds_no_write s2 s3 -> adds_no_write s1 s3.
Proof.
  intros [e1 [E1 W1]] [e2 [E2 W2]]. exists (e1 ++ e2). split.
  - now rewrite E2, E1, app_assoc.
  - unfold hasWrite in *. now rewrite existsb_app, W1, W2.
Qed.

Lemma adds_no_write_emit (e : Event) :
  (match e with Imwrite _ _ _ => false | _ => true end) = true ->
  forall s, adds_no_write s (snd (emit e s)).
Proof.
  intros He s. exists [e]. split; [reflexivity|].
  destruct e; cbn in *; congruence.
Qed.

Lemma processSingleImage_keeps_reference inputFile outputFile angle verbose s :
  referenceImagePath (snd (processSingleImage inputFile outputFile angle verbose s))
  = referenceImagePath s.
Proof.
  apply (preserves_processSingleImage same_reference); unfold same_reference;
    try congruence; intros; intro s0; try reflexivity.
  unfold cv_imwrite. now destruct (imwrite _ _ _).
Qed.

Lemma processDirectory_keeps_reference l outputDir angle recursive verbose s :
  referenceImagePath (snd (processDirectory l outputDir angle recursive verbose s))
  = referenceImagePath s.
Proof.
  apply (preserves_processDirectory same_reference); unfold same_reference;
    try congruence; intros; intro s0; try reflexivity.
  unfold cv_imwrite. now destruct (imwrite _ _ _).
Qed.

Lemma traverse_zero_adds_no_write angle l outputDir recursive verbose s :
  PrimFloat.eqb angle 0%float = true ->
  adds_no_write s (snd (traverseWithSingleAngle l outputDir angle recursive verbose s)).
Proof.
  intro Hz.
  apply (preserves_traverse_zero adds_no_write adds_no_write_refl
           adds_no_write_trans); try assumption; intros; intro s0.
  - now apply adds_no_write_emit.
  - now apply adds_no_write_emit.
Qed.

(* ----------------------------------------------------------------- *)
(** ** The traversal under a reference image *)

Lemma eqb_empty_false (r : string) : r <> "" -> String.eqb r "" = false.
Proof. intro H. now apply String.eqb_neq. Qed.

Lemma entryAngle_with_reference path angle verbose (s : Process) :
  referenceImagePath s <> "" -> entryAngle path angle verbose s = (angle, s).
Proof.
  intro H. unfold entryAngle, bind, get_referenceImagePath.
  now rewrite (eqb_empty_false _ H).
Qed.

(** The part of the loop body after the image: the descent and what
    follows the increment agree in the two traversals when they agree on
    the subdirectory and on the rest. *)
Lemma continue_with_reference (sub : option Listing) (ec : option string)
      (rest : Listing) outputDir angle recursive verbose (s : Process) :
  referenceImagePath s <> "" ->
  (forall subdir, sub = Some subdir ->
     forall (st : Process), referenceImagePath st <> "" ->
       processDirectory subdir outputDir angle true verbose st
       = traverseWithSingleAngle subdir outputDir angle true verbose st) ->
  (forall (st : Process), referenceImagePath st <> "" ->
     processDirectory rest outputDir angle recursive verbose st
     = traverseWithSingleAngle rest outputDir angle recursive verbose st) ->
  bind_returned (descend processDirectory sub outputDir angle recursive verbose)
    (fun _ =>
       match ec with
       | None => processDirectory rest outputDir angle recursive verbose
       | Some msg => if verbose then abort UndefinedBehaviour else ret (Returns true)
       end) s
  = bind_returned (descend traverseWithSingleAngle sub outputDir angle
                           recursive verbose)
      (fun _ =>
         match ec with
         | None => traverseWithSingleAngle rest outputDir angle recursive verbose
         | Some msg => if verbose then abort UndefinedBehaviour else ret (Returns true)
         end) s.
Proof.
  intros Href Hsub Hrest.
  assert (T : forall st : Process, referenceImagePath st <> "" ->
              match ec with
              | None => processDirectory rest outputDir angle recursive verbose
              | Some msg =>
                  if verbose then abort UndefinedBehaviour else ret (Returns true)
              end st
              = match ec with
                | None => traverseWithSingleAngle rest outputDir angle recursive verbose
                | Some msg =>
                    if verbose then abort UndefinedBehaviour else ret (Returns true)
                end st).
  { intros st Hst. destruct ec; [reflexivity | now apply Hrest]. }
  unfold descend.
  destruct sub as [subdir|]; [destruct recursive|];
    try (unfold bind_returned, bind, ret at 1; now apply T).
  unfold bind_returned, bind. rewrite (Hsub subdir eq_refl s Href).
  pose proof (processDirectory_keeps_reference subdir outputDir angle true verbose s)
    as K.
  rewrite (Hsub subdir eq_refl s Href) in K.
  destruct (traverseWithSingleAngle subdir outputDir angle true verbose s)
    as [[b|why] s1]; cbn [snd ret] in *; [apply T; congruence | reflexivity].
Qed.

(** With a non-empty [referenceImagePath], [processDirectory] estimates
    nothing per file: it is the traversal with the one angle. *)
Lemma processDirectory_with_reference l :
  forall outputDir angle recursive verbose (s : Process),
    referenceImagePath s <> "" ->
    processDirectory l outputDir angle recursive verbose s
    = traverseWithSingleAngle l outputDir angle recursive verbose s.
Proof.
  assert (step : forall p sub ec rest,
             (forall subdir, sub = Some subdir ->
                forall o g r v (st : Process), referenceImagePath st <> "" ->
                  processDirectory subdir o g r v st
                  = traverseWithSingleAngle subdir o g r v st) ->
             (forall o g r v (st : Process), referenceImagePath st <> "" ->
                processDirectory rest o g r v st
                = traverseWithSingleAngle rest o g r v st) ->
             forall outputDir angle recursive verbose (s : Process),
               referenceImagePath s <> "" ->
               processDirectory (LEntry (mkDirent p sub) ec rest) outputDir angle
                                recursive verbose s
               = traverseWithSingleAngle (LEntry (mkDirent p sub) ec rest)
                                         outputDir angle recursive verbose s).
  { intros p sub ec rest IHsub IHrest outputDir angle recursive verbose s Href.
    rewrite processDirectory_entry, traverseWithSingleAngle_entry.
    unfold processEntryImage, bind.
    destruct (isImageFile p) eqn:Himg.
    - rewrite (entryAngle_with_reference _ _ _ _ Href).
      pose proof (processSingleImage_keeps_reference
                    p (path_append outputDir (filename p)) angle verbose s) as K.
      destruct (processSingleImage _ _ _ _ s) as [[|] s1]; cbn [negb snd andb] in *;
        [|reflexivity].
      assert (K1 : referenceImagePath
                     (snd (when verbose (cout (Processed p)) s1)) <> "")
        by (destruct verbose; cbn; congruence).
      destruct (when verbose (cout (Processed p)) s1) as [u s2]. cbn [snd] in K1.
      apply (continue_with_reference sub ec rest outputDir angle recursive verbose s2);
        eauto.
    - apply (continue_with_reference sub ec rest outputDir angle recursive verbose s);
        eauto. }
  induction l as [|p ec rest IHrest|p sub ec rest IHsub IHrest|what]
    using Listing_tree_ind.
  - reflexivity.
  - apply step; [discriminate | exact IHrest].
  - apply step; [|exact IHrest]. intros subdir E. injection E as <-. exact IHsub.
  - reflexivity.
Qed.

(* ----------------------------------------------------------------- *)
(** ** The angle of the run when the reference image does not decode *)

Lemma resolveAngle_reference_undecodable (a : Args) (r : string) (s : Process) :
  reference a = Some r -> r <> "" -> Mat_empty (imread (disk s) r) = true ->
  resolveAngle a s
  = (angle a,
     mkProcess r (disk s)
               (trace s ++ [Imread r; Cerr (CouldNotOpenReference r)])).
Proof.
  intros Href Hr Hd. unfold resolveAngle, calculateReferenceAngle. run_unfold.
  rewrite Href. cbn. rewrite (eqb_empty_false _ Hr). cbn. rewrite Hd. cbn.
  trace_norm. reflexivity.
Qed.

(** [dispatch] in its two modes. *)
Lemma dispatch_directory_cases (a : Args) (g : double) (s : Process) :
  fs_is_directory (disk s) (input a) = true ->
  dispatch a g s
  = if fs_exists (disk s) (output a)
    then (let (r, s') :=
            processDirectory (fs_directory_iterator (disk s) (input a))
                             (output a) g (recursive a) (verbose a) s in
          (outcome_map Z.b2z r, s'))
    else
      let (c, d) := fs_create_directories (disk s) (output a) in
      match c with
      | Aborts why => (Aborts why, mkProcess (referenceImagePath s) d (trace s))
      | Returns false =>
          (Returns 1%Z,
           mkProcess (referenceImagePath s) d
             (trace s ++ [Cerr (FailedToCreateOutputDirectory (output a))]))
      | Returns true =>
          let (r, s') :=
            processDirectory (fs_directory_iterator d (input a))
                             (output a) g (recursive a) (verbose a)
                             (mkProcess (referenceImagePath s) d (trace s)) in
          (outcome_map Z.b2z r, s')
      end.
Proof.
  intro Hdir. unfold dispatch, bind_returned. run_unfold. rewrite Hdir.
  destruct (fs_exists (disk s) (output a)); cbn.
  - now destruct (processDirectory _ _ _ _ _ s) as [[ok|why] s'].
  - destruct (fs_create_directories (disk s) (output a)) as [[[|]|why] d]; cbn;
      try reflexivity.
    now destruct (processDirectory _ _ _ _ _ _) as [[ok|why] s'].
Qed.

Lemma dispatch_single_cases (a : Args) (g : double) (s : Process) :
  fs_is_directory (disk s) (input a) = false ->
  dispatch a g s
  = if PrimFloat.eqb g 0%float && String.eqb (referenceImagePath s) ""
    then (let (r, s') := calculateReferenceAngle (input a) (verbose a) s in
          let (t_angle, successful) := r in
          if successful : bool
          then let (ok, s2) := processSingleImage (input a) (output a) t_angle
                                                  (verbose a) s' in
               (Returns (Z.b2z ok), s2)
          else (Returns 1%Z, s'))
    else (let (ok, s2) := processSingleImage (input a) (output a) g (verbose a) s in
          (Returns (Z.b2z ok), s2)).
Proof.
  intro Hdir. unfold dispatch. run_unfold. rewrite Hdir.
  destruct (PrimFloat.eqb g 0%float && String.eqb (referenceImagePath s) "").
  - destruct (calculateReferenceAngle (input a) (verbose a) s) as [[t [|]] s'];
      cbn -[processSingleImage]; [|reflexivity].
    now destruct (processSingleImage _ _ _ _ _).
  - now destruct (processSingleImage _ _ _ _ _).
Qed.

Lemma dispatch_zero_adds_no_write (a : Args) (agl : double) (s : Process) :
  referenceImagePath s <> "" -> PrimFloat.eqb agl 0%float = true ->
  adds_no_write s (snd (dispatch a agl s)).
Proof.
  intros Href Hz.
  assert (D : forall l (st : Process),
             referenceImagePath st <> "" ->
             adds_no_write st
               (snd (let (r, s') := processDirectory l (output a) agl (recursive a)
                                                     (verbose a) st in
                     (outcome_map Z.b2z r, s')))).
  { intros l st Hst. rewrite processDirectory_with_reference by exact Hst.
    pose proof (traverse_zero_adds_no_write agl l (output a) (recursive a)
                  (verbose a) st Hz) as H.
    now destruct (traverseWithSingleAngle _ _ _ _ _ st). }
  destruct (fs_is_directory (disk s) (input a)) eqn:Hdir.
  - rewrite (dispatch_directory_cases a agl s Hdir).
    destruct (fs_exists (disk s) (output a)); [now apply D|].
    destruct (fs_create_directories (disk s) (output a)) as [[[|]|why] d].
    + destruct (D (fs_directory_iterator d (input a))
                  (mkProcess (referenceImagePath s) d (trace s)) Href)
        as [evs [E W]].
      exists evs. now split.
    + exists [Cerr (FailedToCreateOutputDirectory (output a))]. now split.
    + exists []. split; [cbn; now rewrite app_nil_r | reflexivity].
  - rewrite (dispatch_single_cases a agl s Hdir).
    rewrite (eqb_empty_false _ Href), andb_false_r.
    rewrite (processSingleImage_zero _ _ _ _ s Hz). cbn. apply adds_no_write_refl.
Qed.

Lemma dispatch_single_with_reference (a : Args) (agl : double) (s : Process) :
  referenceImagePath s <> "" ->
  fs_is_directory (disk s) (input a) = false ->
  dispatch a agl s
  = (let (ok, s2) := processSingleImage (input a) (output a) agl (verbose a) s in
     (Returns (Z.b2z ok), s2)).
Proof.
  intros Href Hdir. rewrite (dispatch_single_cases a agl s Hdir).
  now rewrite (eqb_empty_false _ Href), andb_false_r.
Qed.

(** C2, as the code has it.  When the reference image does not decode,
    [main] prints the diagnostic and goes on with the explicit angle
    argument: from there the run is the run of the rest of [main] with
    that angle; in single-file mode the file is processed with it; in a
    traversal every image is processed with it, no per-file estimate being
    made; and when that angle is [0.0] (the default) nothing is written. *)
Theorem main_keeps_explicit_angle_when_reference_fails :
  forall (a : Args) (r : string) (s : Process),
    reference a = Some r -> r <> "" -> Mat_empty (imread (disk s) r) = true ->
    let s1 := mkProcess r (disk s)
                (trace s ++ [Imread r; Cerr (CouldNotOpenReference r)]) in
    main (Some a) s = dispatch a (angle a) s1
    /\ (fs_is_directory (disk s) (input a) = false ->
        main (Some a) s
        = (let (ok, s2) := processSingleImage (input a) (output a) (angle a)
                                              (verbose a) s1 in
           (Returns (Z.b2z ok), s2)))
    /\ (forall l outputDir rec vb (s' : Process),
           referenceImagePath s' = r ->
           processDirectory l outputDir (angle a) rec vb s'
           = traverseWithSingleAngle l outputDir (angle a) rec vb s')
    /\ (PrimFloat.eqb (angle a) 0%float = true ->
        exists evs,
          trace (snd (main (Some a) s)) = trace s1 ++ evs
          /\ hasWrite evs = false).
Proof.
  intros a r s Href Hr Hd s1.
  assert (E : main (Some a) s = dispatch a (angle a) s1).
  { unfold main, bind.
    now rewrite (resolveAngle_reference_undecodable a r s Href Hr Hd). }
  split; [exact E|]. split; [|split].
  - intro Hdir. rewrite E. now apply dispatch_single_with_reference.
  - intros l outputDir rec vb s' Hs'.
    apply processDirectory_with_reference. congruence.
  - intro Hz. rewrite E. now apply dispatch_zero_adds_no_write.
Qed.

(* ----------------------------------------------------------------- *)
(** ** Failure of a file of the current level *)

Lemma processEntryImage_fails path outputDir angle verbose (s s1 s2 : Process)
      (a' : double) :
  isImageFile path = true ->
  entryAngle path angle verbose s = (a', s1) ->
  processSingleImage path (path_append outputDir (filename path)) a' verbose s1
  = (false, s2) ->
  processEntryImage path outputDir angle verbose s
  = (None, mkProcess (referenceImagePath s2) (disk s2)
                     (trace s2 ++ [Cerr (FailedToProcess path)])).
Proof.
  intros Himg Ha Hp. unfold processEntryImage, bind. rewrite Himg, Ha, Hp.
  reflexivity.
Qed.

Lemma processDirectory_failure_is_final l :
  forall post outputDir angle recursive verbose (s : Process),
    fst (processDirectory l outputDir angle recursive verbose s) = Returns false ->
    processDirectory (l +++ post) outputDir angle recursive verbose s
    = processDirectory l outputDir angle recursive verbose s.
Proof.
  induction l as [|[p sub] ec rest IH|what];
    intros post outputDir angle recursive verbose s H.
  - discriminate H.
  - cbn [lapp]. rewrite !processDirectory_entry in *.
    unfold bind_returned, bind in *.
    destruct (processEntryImage p outputDir angle verbose s) as [[a'|] s1];
      [|reflexivity].
    destruct (descend processDirectory sub outputDir a' recursive verbose s1)
      as [[u|why] s2]; [|reflexivity].
    destruct ec as [msg|].
    + destruct verbose; discriminate H.
    + now apply IH.
  - discriminate H.
Qed.

(** When the loop gets through [pre], the traversal of a listing that
    starts with [pre] goes on with what follows [pre], from the state and
    with the angle the loop has then. *)
Lemma processDirectory_after pre :
  forall l outputDir angle recursive verbose (s s1 : Process) (a1 : double),
    loopThrough pre outputDir angle recursive verbose s = (Returns (Some a1), s1) ->
    processDirectory (pre +++ l) outputDir angle recursive verbose s
    = processDirectory l outputDir a1 recursive verbose s1.
Proof.
  induction pre as [|[p sub] ec rest IH|what];
    intros l outputDir angle recursive verbose s s1 a1 H.
  - injection H as <- <-. reflexivity.
  - cbn [lapp]. rewrite processDirectory_entry. rewrite loopThrough_entry in H.
    unfold bind_returned, bind in *.
    destruct (processEntryImage p outputDir angle verbose s) as [[a'|] s0];
      [|discriminate H].
    destruct (descend processDirectory sub outputDir a' recursive verbose s0)
      as [[u|why] s2]; [|discriminate H].
    destruct ec as [msg|].
    + destruct verbose; discriminate H.
    + now apply IH.
  - discriminate H.
Qed.

(** The loop gets through [pre] exactly when the traversal of [pre] alone
    returns [true] without an iteration error, and the two end in the
    same state. *)
Lemma loopThrough_traversal pre :
  forall outputDir angle recursive verbose (s s1 : Process) (a1 : double),
    loopThrough pre outputDir angle recursive verbose s = (Returns (Some a1), s1) ->
    processDirectory pre outputDir angle recursive verbose s = (Returns true, s1)
    /\ errorFree pre = true.
Proof.
  induction pre as [|[p sub] ec rest IH|what];
    intros outputDir angle recursive verbose s s1 a1 H.
  - injection H as <- <-. now split.
  - rewrite processDirectory_entry. rewrite loopThrough_entry in H.
    unfold bind_returned, bind in *.
    destruct (processEntryImage p outputDir angle verbose s) as [[a'|] s0];
      [|discriminate H].
    destruct (descend processDirectory sub outputDir a' recursive verbose s0)
      as [[u|why] s2]; [|discriminate H].
    destruct ec as [msg|].
    + destruct verbose; discriminate H.
    + cbn [errorFree]. now apply (IH _ _ _ _ _ _ _ H).
  - discriminate H.
Qed.

Lemma traversal_loopThrough pre :
  forall outputDir angle recursive verbose (s s1 : Process),
    processDirectory pre outputDir angle recursive verbose s = (Returns true, s1) ->
    errorFree pre = true ->
    exists a1 : double,
      loopThrough pre outputDir angle recursive verbose s = (Returns (Some a1), s1).
Proof.
  induction pre as [|[p sub] ec rest IH|what];
    intros outputDir angle recursive verbose s s1 H Herr.
  - injection H as <-. now exists angle.
  - rewrite loopThrough_entry. rewrite processDirectory_entry in H.
    unfold bind_returned, bind in *.
    destruct (processEntryImage p outputDir angle verbose s) as [[a'|] s0];
      [|discriminate H].
    destruct (descend processDirectory sub outputDir a' recursive verbose s0)
      as [[u|why] s2]; [|discriminate H].
    cbn [errorFree] in Herr. destruct ec as [msg|]; [discriminate Herr|].
    now apply IH.
  - discriminate H.
Qed.

(** C9.  Wherever in the listing it stands: when the loop has got through
    the entries [pre] before it (all of them handled, every increment a
    success), an entry that is an image file on which [processSingleImage]
    fails (whatever the reason: the angle is [0.0], the file does not
    decode, the rotation is empty, the encoding fails) makes
    [processDirectory] return [false] with the state that call left plus
    the diagnostic, whatever the entry is and whatever follows it.  That
    the loop has got through [pre] is the same as that the traversal of
    [pre] alone returns [true] without an iteration error, and the state
    is the state that traversal ends in.  And a traversal that returns
    [false] is the same traversal, state and trace included, whatever
    entries are placed after its listing: nothing after the failure is
    processed. *)
Theorem processDirectory_aborts_at_first_failure :
  (forall pre path sub ec post outputDir angle recursive verbose
          (s s1 s2 s3 : Process) (a1 g : double),
      loopThrough pre outputDir angle recursive verbose s = (Returns (Some a1), s1) ->
      isImageFile path = true ->
      entryAngle path a1 verbose s1 = (g, s2) ->
      processSingleImage path (path_append outputDir (filename path)) g verbose s2
      = (false, s3) ->
      processDirectory (pre +++ LEntry (mkDirent path sub) ec post) outputDir angle
                       recursive verbose s
      = (Returns false,
         mkProcess (referenceImagePath s3) (disk s3)
                   (trace s3 ++ [Cerr (FailedToProcess path)])))
  /\ (forall pre outputDir angle recursive verbose (s s1 : Process),
         (exists a1 : double,
             loopThrough pre outputDir angle recursive verbose s
             = (Returns (Some a1), s1))
         <-> (processDirectory pre outputDir angle recursive verbose s
              = (Returns true, s1)
              /\ errorFree pre = true))
  /\ (forall l post outputDir angle recursive verbose (s : Process),
         fst (processDirectory l outputDir angle recursive verbose s)
         = Returns false ->
         processDirectory (l +++ post) outputDir angle recursive verbose s
         = processDirectory l outputDir angle recursive verbose s).
Proof.
  split; [|split].
  - intros pre path sub ec post outputDir angle recursive verbose s s1 s2 s3 a1 g
           Hpre Hi Ha Hp.
    rewrite (processDirectory_after pre _ _ _ _ _ _ _ _ Hpre).
    rewrite processDirectory_entry. unfold bind.
    now rewrite (processEntryImage_fails _ _ _ _ _ _ _ _ Hi Ha Hp).
  - intros pre outputDir angle recursive verbose s s1. split.
    + intros [a1 H]. now apply (loopThrough_traversal pre _ _ _ _ _ _ a1).
    + intros [H Herr]. now apply traversal_loopThrough.
  - intros. now apply processDirectory_failure_is_final.
Qed.

(* ----------------------------------------------------------------- *)
(** ** What a descent returns, and a descent that does not return *)

Lemma processEntryImage_skips path outputDir angle verbose (s : Process) :
  isImageFile path = false ->
  processEntryImage path outputDir angle verbose s = (Some angle, s).
Proof. intro H. unfold processEntryImage. now rewrite H. Qed.



(** The state the descent of lines 188-190 leaves. *)
Lemma descend_state sub outputDir angle recursive verbose (s : Process) :
  snd (descend processDirectory sub outputDir angle recursive verbose s)
  = match sub with
    | Some subdir =>
        if recursive
        then snd (processDirectory subdir outputDir angle true verbose s)
        else s
    | None => s
    end.
Proof.
  unfold descend, bind_returned, bind.
  destruct sub as [subdir|]; [destruct recursive|]; try reflexivity.
  now destruct (processDirectory subdir outputDir angle true verbose s)
    as [[b|why] s'].
Qed.

(** The descent of lines 188-190 into a directory in recursive mode is the
    call of [processDirectory] on it. *)
Lemma descend_recursive subdir outputDir angle verbose (s : Process) :
  descend processDirectory (Some subdir) outputDir angle true verbose s
  = (let (r, s') := processDirectory subdir outputDir angle true verbose s in
     (outcome_map (fun _ => tt) r, s')).
Proof.
  unfold descend, bind_returned, bind.
  now destruct (processDirectory subdir outputDir angle true verbose s)
    as [[b|why] s'].
Qed.


(* ----------------------------------------------------------------- *)
(** ** The flag [--detect] *)

(** C10.  [main] does not read the value of [-d/--detect]: two runs whose
    parsed arguments agree on everything but that flag, started in the
    same state, return the same exit status and leave the same reference
    path, disk and trace (so the same angle was resolved, the same files
    were decoded and the same outputs written). *)
Theorem main_ignores_detect :
  forall (a a' : Args) (s : Process),
    input a = input a' -> output a = output a' -> angle a = angle a' ->
    recursive a = recursive a' -> verbose a = verbose a' ->
    reference a = reference a' ->
    main (Some a) s = main (Some a') s.
Proof.
  intros [i o g r v d ref] [i' o' g' r' v' d' ref'] s Hi Ho Hg Hr Hv Href.
  cbn [input output angle recursive verbose reference] in *.
  subst i' o' g' r' v' ref'.
  unfold main, resolveAngle, dispatch.
  cbn [input output angle recursive verbose reference].
  reflexivity.
Qed.

Lemma dispatch_single (a : Args) (agl : double) (s : Process) :
  fs_is_directory (disk s) (input a) = false ->
  PrimFloat.eqb agl 0%float = false ->
  dispatch a agl s
  = (let (ok, s') := processSingleImage (input a) (output a) agl (verbose a) s in
     (Returns (Z.b2z ok), s')).
Proof.
  intros Hdir Hz. rewrite (dispatch_single_cases a agl s Hdir).
  now rewrite Hz.
Qed.

Lemma dispatch_directory (a : Args) (agl : double) (s : Process) :
  fs_is_directory (disk s) (input a) = true ->
  fs_exists (disk s) (output a) = true ->
  dispatch a agl s
  = (let (r, s') :=
       processDirectory (fs_directory_iterator (disk s) (input a))
                        (output a) agl (recursive a) (verbose a) s in
     (outcome_map Z.b2z r, s')).
Proof.
  intros Hdir Hex. rewrite (dispatch_directory_cases a agl s Hdir).
  now rewrite Hex.
Qed.

(** X1.  With no reference image, what [main] returns is the [bool] of
    the processing converted to [int]: of [processSingleImage] in
    single-file mode with an explicit angle that is not [0.0], of
    [processDirectory] in directory mode when the output directory is
    there.  So the exit status is [1] when processing succeeded and [0]
    when it failed.  (A traversal that does not return leaves [main]
    without a status, as it ended.) *)
Theorem main_returns_the_bool_of_processing :
  forall (a : Args) (s : Process),
    reference a = None ->
    let s0 := mkProcess "" (disk s) (trace s) in
    (fs_is_directory (disk s) (input a) = false ->
     PrimFloat.eqb (angle a) 0%float = false ->
     main (Some a) s
     = (let (ok, s') := processSingleImage (input a) (output a) (angle a)
                                           (verbose a) s0 in
        (Returns (Z.b2z ok), s')))
    /\ (fs_is_directory (disk s) (input a) = true ->
        fs_exists (disk s) (output a) = true ->
        main (Some a) s
        = (let (r, s') :=
             processDirectory (fs_directory_iterator (disk s) (input a))
                              (output a) (angle a) (recursive a) (verbose a) s0 in
           (outcome_map Z.b2z r, s'))).
Proof.
  intros a s Href s0.
  assert (E : main (Some a) s = dispatch a (angle a) s0).
  { unfold main, resolveAngle. run_unfold. rewrite Href. reflexivity. }
  split.
  - intros Hdir Hz. rewrite E. now apply dispatch_single.
  - intros Hdir Hex. rewrite E. now apply (dispatch_directory a (angle a) s0).
Qed.

(** X2.  In a traversal without a reference image, an image entry that
    decodes is processed with the estimate made from it, and that
    estimate is the angle of the rest of the traversal: the angle the
    traversal was called with has no effect. *)
Theorem processDirectory_ignores_angle_without_reference :
  forall path sub ec rest outputDir (angle angle' : double) recursive verbose
         (s : Process),
    referenceImagePath s = "" ->
    isImageFile path = true ->
    Mat_empty (imread (disk s) path) = false ->
    fst (entryAngle path angle verbose s)
    = determineRotationAngle (imread (disk s) path)
    /\ processDirectory (LEntry (mkDirent path sub) ec rest) outputDir angle
                        recursive verbose s
       = processDirectory (LEntry (mkDirent path sub) ec rest) outputDir angle'
                          recursive verbose s.
Proof.
  intros path sub ec rest outputDir angle angle' recursive verbose s Href Himg Hd.
  assert (E : forall g, entryAngle path g verbose s
                        = (determineRotationAngle (imread (disk s) path),
                           snd (entryAngle path g verbose s))).
  { intro g. unfold entryAngle, calculateReferenceAngle. run_unfold.
    rewrite Href. cbn. rewrite Hd. now destruct verbose. }
  assert (F : snd (entryAngle path angle verbose s)
              = snd (entryAngle path angle' verbose s)).
  { unfold entryAngle, calculateReferenceAngle. run_unfold.
    rewrite Href. cbn. rewrite Hd. now destruct verbose. }
  split.
  - now rewrite E.
  - rewrite !processDirectory_entry. unfold processEntryImage, bind.
    rewrite Himg, (E angle), (E angle'), F. reflexivity.
Qed.

(** X3.  An increment that reports an error ends the traversal: for an
    entry that is neither an image file nor a directory, the call is over
    there, whatever entries the directory still holds, and nothing has
    been decoded, written or printed.  Without [verbose] it returns
    [true]; with [verbose] it comes to the warning of line 194, which
    dereferences the end iterator: the behaviour is undefined, and no
    warning is known to be printed. *)
Theorem processDirectory_stops_at_iteration_error :
  forall path msg rest outputDir angle recursive verbose (s : Process),
    isImageFile path = false ->
    processDirectory (LEntry (mkDirent path None) (Some msg) rest) outputDir angle
                     recursive verbose s
    = (if verbose then Aborts UndefinedBehaviour else Returns true, s).
Proof.
  intros path msg rest outputDir angle recursive verbose s Himg.
  rewrite processDirectory_entry. unfold bind.
  rewrite (processEntryImage_skips _ _ _ _ _ Himg).
  now destruct verbose.
Qed.

(** X4.  A path is an image file exactly when its extension is one of
    [.jpg .jpeg .png .bmp .tif .tiff], compared as written: the same
    extension in capitals is not recognized. *)
Theorem isImageFile_exact_extension :
  (forall path : string,
      isImageFile path = true <-> In (extension path) imageExtensions)
  /\ isImageFile "photos/a.png" = true
  /\ isImageFile "photos/a.PNG" = false
  /\ isImageFile "photos/archive.tar.gz" = false
  /\ isImageFile "photos/.png" = false.
Proof.
  split; [|repeat split].
  intro path. unfold isImageFile. rewrite existsb_exists. split.
  - intros [x [Hin Heq]]. apply String.eqb_eq in Heq. now subst x.
  - intro Hin. exists (extension path). split; [exact Hin | apply String.eqb_refl].
Qed.

(* ================================================================= *)
(** * Further properties of the code *)

(* ----------------------------------------------------------------- *)
(** ** What [processSingleImage] reads, writes and prints *)

(** The events [processSingleImage] adds, case by case. *)
Lemma processSingleImage_cases inputFile outputFile angle verbose (s : Process) :
  let image := imread (disk s) inputFile in
  let rotated := rotateImage image angle in
  let r := processSingleImage inputFile outputFile angle verbose s in
  (PrimFloat.eqb angle 0%float = true /\ r = (false, s))
  \/ (PrimFloat.eqb angle 0%float = false /\ Mat_empty image = true
      /\ fst r = false /\ disk (snd r) = disk s
      /\ trace (snd r)
         = trace s ++ [Imread inputFile; Cerr (CouldNotOpenImage inputFile)])
  \/ (PrimFloat.eqb angle 0%float = false /\ Mat_empty image = false
      /\ Mat_empty rotated = true
      /\ fst r = false /\ disk (snd r) = disk s
      /\ trace (snd r) = trace s ++ [Imread inputFile; Cerr ErrorRotating])
  \/ (PrimFloat.eqb angle 0%float = false /\ Mat_empty image = false
      /\ Mat_empty rotated = false
      /\ fst (imwrite (disk s) outputFile rotated) = false
      /\ fst r = false
      /\ trace (snd r)
         = trace s ++ [Imread inputFile; Imwrite outputFile rotated false;
                       Cerr (FailedToWrite outputFile)])
  \/ (PrimFloat.eqb angle 0%float = false /\ Mat_empty image = false
      /\ Mat_empty rotated = false
      /\ fst (imwrite (disk s) outputFile rotated) = true
      /\ fst r = true
      /\ trace (snd r)
         = trace s ++ Imread inputFile :: Imwrite outputFile rotated true
             :: (if verbose then [Cout (RotatedAndSaved outputFile)] else [])).
Proof.
  intros image rotated r. subst image rotated r. unfold processSingleImage.
  destruct (PrimFloat.eqb angle 0%float) eqn:Hz; [left; now split|].
  right. run_unfold. cbn.
  destruct (Mat_empty (imread (disk s) inputFile)) eqn:Hd.
  { left. cbn. trace_norm. repeat split; reflexivity. }
  right. cbn.
  destruct (Mat_empty (rotateImage (imread (disk s) inputFile) angle)) eqn:Hr.
  { left. cbn. trace_norm. repeat split; reflexivity. }
  right. cbn. destruct (imwrite (disk s) outputFile _) as [[|] d] eqn:Hw; cbn.
  - right. destruct verbose; cbn; trace_norm; repeat split; reflexivity.
  - left. trace_norm. repeat split; reflexivity.
Qed.

(** X5.  [processSingleImage] returns [true] exactly when it has encoded
    the rotated picture to [outputFile] with success.  It decodes nothing
    but [inputFile]; whatever it encodes is the input rotated by [angle],
    encoded to [outputFile], with the result it returns; and every
    failure other than the short-circuit at [0.0] ends with a line on
    [cerr] whatever [verbose] is, while the short-circuit itself adds no
    event. *)
Theorem processSingleImage_true_iff_written :
  forall (inputFile outputFile : string) (angle : double) (verbose : bool)
         (s : Process),
    let r := processSingleImage inputFile outputFile angle verbose s in
    exists evs : list Event,
      trace (snd r) = trace s ++ evs
      /\ (fst r = true <-> exists img, In (Imwrite outputFile img true) evs)
      /\ (forall p, In (Imread p) evs -> p = inputFile)
      /\ (forall q img ok, In (Imwrite q img ok) evs ->
            q = outputFile
            /\ img = rotateImage (imread (disk s) inputFile) angle
            /\ ok = fst r)
      /\ (fst r = false ->
            if PrimFloat.eqb angle 0%float then evs = []
            else exists m, last evs (Imread inputFile) = Cerr m).
Proof.
  intros inputFile outputFile angle verbose s. cbv zeta.
  pose proof (processSingleImage_cases inputFile outputFile angle verbose s) as C.
  cbv zeta in C.
  destruct (processSingleImage inputFile outputFile angle verbose s) as [b s'].
  cbn [fst snd] in *.
  destruct C as [[Hz E]|[(Hz & Hd & Hf & _ & Ht)|[(Hz & Hd & Hr & Hf & _ & Ht)
       |[(Hz & Hd & Hr & Hw & Hf & Ht)|(Hz & Hd & Hr & Hw & Hf & Ht)]]]];
    [ injection E as -> ->; exists []; rewrite app_nil_r
    | eexists; split; [exact Ht|] ..
    | eexists; split; [exact Ht|] ];
    rewrite ?Hz; try subst b; try destruct verbose; cbn [In last];
    repeat split; intros;
    repeat match goal with
           | H : _ \/ _ |- _ => destruct H
           | H : False |- _ => destruct H
           | H : ex _ |- _ => destruct H
           | H : @eq Event _ _ |- _ => inversion H; clear H; subst
           end;
    try discriminate; try reflexivity; eauto.
Qed.

(* ----------------------------------------------------------------- *)
(** ** The events of a traversal *)

Lemma emits_refl (Q : Event -> Prop) (s : Process) : emits Q s s.
Proof. exists []. split; [now rewrite app_nil_r | constructor]. Qed.

Lemma emits_trans (Q : Event -> Prop) (s1 s2 s3 : Process) :
  emits Q s1 s2 -> emits Q s2 s3 -> emits Q s1 s3.
Proof.
  intros [e1 [E1 F1]] [e2 [E2 F2]]. exists (e1 ++ e2). split.
  - now rewrite E2, E1, app_assoc.
  - apply Forall_app. now split.
Qed.

Lemma emits_weaken (Q Q' : Event -> Prop) (s s' : Process) :
  (forall e, Q e -> Q' e) -> emits Q s s' -> emits Q' s s'.
Proof.
  intros H [evs [E F]]. exists evs. split; [exact E|].
  eapply Forall_impl; [exact H | exact F].
Qed.

Lemma emits_step (Q : Event -> Prop) (s s' : Process) (evs : list Event) :
  trace s' = trace s ++ evs -> Forall Q evs -> emits Q s s'.
Proof. intros E F. exists evs. now split. Qed.

Lemma traversalEvent_weaken outputDir ref (angle angle' : double)
      (paths paths' : list string) (e : Event) :
  (ref <> "" -> angle' = angle) -> incl paths paths' ->
  traversalEvent outputDir ref angle' paths e ->
  traversalEvent outputDir ref angle paths' e.
Proof.
  intros Ha Hp. destruct e as [p|q img ok|m|m]; cbn; auto.
  intros (p & m & g & Hin & Hq & Hm & Hi & Hw).
  exists p, m, g. repeat split; auto.
  unfold writeAngle in *. destruct (String.eqb ref "") eqn:E; [exact Hw|].
  rewrite Hw. apply Ha. intro H. rewrite H in E. discriminate E.
Qed.

Lemma calculateReferenceAngle_cases path verbose (s : Process) :
  let img := imread (disk s) path in
  (Mat_empty img = true
   /\ calculateReferenceAngle path verbose s
      = ((0%float, false),
         mkProcess (referenceImagePath s) (disk s)
                   (trace s ++ [Imread path; Cerr (CouldNotOpenReference path)])))
  \/ (Mat_empty img = false
      /\ calculateReferenceAngle path verbose s
         = ((determineRotationAngle img, true),
            mkProcess (referenceImagePath s) (disk s)
              (trace s ++ Imread path
                 :: (if verbose
                     then [Cout (AngleFromReference (determineRotationAngle img))]
                     else [])))).
Proof.
  intro img. subst img. unfold calculateReferenceAngle. run_unfold. cbn.
  destruct (Mat_empty (imread (disk s) path)); [left | right]; split;
    try reflexivity; cbn; [|destruct verbose; cbn]; trace_norm; reflexivity.
Qed.

(** What [entryAngle] leaves: the disk and the reference path as they
    were, a trace grown by the decode of the entry and what was printed;
    and the angle it returns. *)
Lemma entryAngle_cases path outputDir angle verbose (s : Process) :
  let r := entryAngle path angle verbose s in
  referenceImagePath (snd r) = referenceImagePath s
  /\ disk (snd r) = disk s
  /\ emits (traversalEvent outputDir (referenceImagePath s) angle [path]) s (snd r)
  /\ (referenceImagePath s = "" ->
      Mat_empty (imread (disk s) path) = false ->
      fst r = determineRotationAngle (imread (disk s) path))
  /\ (referenceImagePath s = "" ->
      Mat_empty (imread (disk s) path) = true -> fst r = angle)
  /\ (referenceImagePath s <> "" -> fst r = angle).
Proof.
  cbv zeta. unfold entryAngle, bind, get_referenceImagePath.
  destruct (String.eqb (referenceImagePath s) "") eqn:E.
  - apply String.eqb_eq in E.
    destruct (calculateReferenceAngle_cases path verbose s) as [[Hd C]|[Hd C]];
      rewrite C; cbn; repeat split; try congruence.
    + eapply emits_step; [reflexivity|]. repeat constructor.
    + eapply emits_step; [reflexivity|].
      destruct verbose; repeat constructor.
  - apply String.eqb_neq in E. cbn. repeat split; try congruence.
    apply emits_refl.
Qed.

(** What the image part of the loop body leaves. *)
Lemma processEntryImage_events path outputDir angle verbose (s : Process) :
  let r := processEntryImage path outputDir angle verbose s in
  referenceImagePath (snd r) = referenceImagePath s
  /\ emits (traversalEvent outputDir (referenceImagePath s) angle
              (if isImageFile path then [path] else [])) s (snd r)
  /\ (forall a', fst r = Some a' -> referenceImagePath s <> "" -> a' = angle).
Proof.
  cbv zeta. unfold processEntryImage.
  destruct (isImageFile path) eqn:Himg.
  2:{ cbn. repeat split; [apply emits_refl | congruence]. }
  unfold bind.
  pose proof (entryAngle_cases path outputDir angle verbose s) as A. cbv zeta in A.
  destruct (entryAngle path angle verbose s) as [g s1]. cbn [fst snd] in A.
  destruct A as (Ar & Ad & Ae & Ag & _ & Ak).
  pose proof (processSingleImage_cases
                path (path_append outputDir (filename path)) g verbose s1) as C.
  cbv zeta in C. rewrite Ad in C.
  pose proof (processSingleImage_keeps_reference
                path (path_append outputDir (filename path)) g verbose s1) as K.
  assert (W : Mat_empty (imread (disk s) path) = false ->
              traversalEvent outputDir (referenceImagePath s) angle [path]
                (Imwrite (path_append outputDir (filename path))
                         (rotateImage (imread (disk s) path) g) true)
              /\ traversalEvent outputDir (referenceImagePath s) angle [path]
                   (Imwrite (path_append outputDir (filename path))
                            (rotateImage (imread (disk s) path) g) false)).
  { intro Hd. split; exists path, (imread (disk s) path), g;
      (repeat split; [now left | exact Hd |]);
      unfold writeAngle;
      (destruct (String.eqb (referenceImagePath s) "") eqn:E;
       [ apply String.eqb_eq in E; now apply Ag
       | apply String.eqb_neq in E; now apply Ak ]). }
  destruct (processSingleImage _ _ g verbose s1) as [b s2]. cbn [fst snd] in *.
  assert (E2 : emits (traversalEvent outputDir (referenceImagePath s) angle [path])
                     s1 s2 /\ (b = true \/ b = false)).
  { destruct C as [[Hz E]|[(Hz & Hd & Hf & _ & Ht)|[(Hz & Hd & Hr & Hf & _ & Ht)
       |[(Hz & Hd & Hr & Hw & Hf & Ht)|(Hz & Hd & Hr & Hw & Hf & Ht)]]]].
    - injection E as -> ->. split; [apply emits_refl | now right].
    - split; [|now right]. eapply emits_step; [exact Ht|].
      repeat constructor.
    - split; [|now right]. eapply emits_step; [exact Ht|].
      repeat constructor.
    - split; [|now right]. eapply emits_step; [exact Ht|].
      constructor; [now left|]. constructor; [now apply W|]. repeat constructor.
    - split; [|now left]. eapply emits_step; [exact Ht|].
      constructor; [now left|]. constructor; [now apply W|].
      destruct verbose; repeat constructor. }
  destruct E2 as [E2 _].
  destruct b; cbn [negb].
  - destruct verbose; cbn; (split; [congruence|]); (split; [|intros a' H Hr;
      injection H as <-; now apply Ak]).
    + eapply emits_trans; [exact Ae|]. eapply emits_trans; [exact E2|].
      eapply emits_step; [reflexivity|]. repeat constructor.
    + eapply emits_trans; [exact Ae | exact E2].
  - cbn. split; [congruence|]. split; [|discriminate].
    eapply emits_trans; [exact Ae|]. eapply emits_trans; [exact E2|].
    eapply emits_step; [reflexivity|]. repeat constructor.
Qed.

Lemma imagePaths_entry recursive path sub ec rest :
  imagePaths recursive (LEntry (mkDirent path sub) ec rest)
  = (if isImageFile path then [path] else [])
    ++ (match sub with
        | Some subdir => if recursive then imagePaths true subdir else []
        | None => []
        end)
    ++ imagePaths recursive rest.
Proof. reflexivity. Qed.

(** Every event of a traversal is an event [traversalEvent] describes. *)
Lemma processDirectory_events l :
  forall outputDir angle recursive verbose (s : Process),
    emits (traversalEvent outputDir (referenceImagePath s) angle
                          (imagePaths recursive l))
          s (snd (processDirectory l outputDir angle recursive verbose s)).
Proof.
  assert (step : forall p sub ec rest,
             (forall subdir, sub = Some subdir ->
                forall o g r v (st : Process),
                  emits (traversalEvent o (referenceImagePath st) g
                                        (imagePaths r subdir))
                        st (snd (processDirectory subdir o g r v st))) ->
             (forall o g r v (st : Process),
                 emits (traversalEvent o (referenceImagePath st) g
                                       (imagePaths r rest))
                       st (snd (processDirectory rest o g r v st))) ->
             forall outputDir angle recursive verbose (s : Process),
               emits (traversalEvent outputDir (referenceImagePath s) angle
                        (imagePaths recursive (LEntry (mkDirent p sub) ec rest)))
                     s (snd (processDirectory (LEntry (mkDirent p sub) ec rest)
                                              outputDir angle recursive verbose s))).
  { intros p sub ec rest IHsub IHrest outputDir angle recursive verbose s.
    rewrite processDirectory_entry, imagePaths_entry. unfold bind_returned, bind.
    pose proof (processEntryImage_events p outputDir angle verbose s) as E.
    cbv zeta in E.
    destruct (processEntryImage p outputDir angle verbose s) as [[a'|] s1];
      cbn [fst snd] in E; destruct E as (Er & Ee & Ea).
    2:{ cbn. eapply emits_weaken; [|exact Ee]. intro e.
        apply traversalEvent_weaken; [reflexivity | apply incl_appl, incl_refl]. }
    assert (Ha : referenceImagePath s <> "" -> a' = angle) by (now apply Ea).
    set (Q := traversalEvent outputDir (referenceImagePath s) angle _).
    assert (E1 : emits Q s s1).
    { eapply emits_weaken; [|exact Ee]. intro e.
      apply traversalEvent_weaken; [reflexivity | apply incl_appl, incl_refl]. }
    assert (E2 : emits Q s1 (snd (descend processDirectory sub outputDir a'
                                          recursive verbose s1))
                 /\ referenceImagePath
                      (snd (descend processDirectory sub outputDir a'
                                    recursive verbose s1))
                    = referenceImagePath s).
    { rewrite descend_state.
      destruct sub as [subdir|]; [destruct recursive|];
        try (split; [apply emits_refl | exact Er]).
      pose proof (IHsub subdir eq_refl outputDir a' true verbose s1) as H.
      pose proof (processDirectory_keeps_reference
                    subdir outputDir a' true verbose s1) as K.
      split; [|congruence].
      eapply emits_weaken; [|exact H]. intro e. rewrite Er.
      apply traversalEvent_weaken; [exact Ha|].
      apply incl_appr, incl_appl, incl_refl. }
    destruct (descend processDirectory sub outputDir a' recursive verbose s1)
      as [[u|why] s2]; cbn [snd] in E2; destruct E2 as [E2 Er2].
    2:{ cbn. eapply emits_trans; [exact E1 | exact E2]. }
    eapply emits_trans; [exact E1|]. eapply emits_trans; [exact E2|].
    destruct ec as [msg|].
    - destruct verbose; apply emits_refl.
    - eapply emits_weaken; [|apply IHrest]. intro e. rewrite Er2.
      apply traversalEvent_weaken; [exact Ha|].
      apply incl_appr, incl_appr, incl_refl. }
  induction l as [|p ec rest IHrest|p sub ec rest IHsub IHrest|what]
    using Listing_tree_ind.
  - intros. apply emits_refl.
  - apply step; [discriminate | exact IHrest].
  - apply step; [|exact IHrest]. intros subdir E. injection E as <-. exact IHsub.
  - intros. apply emits_refl.
Qed.

Lemma imagePaths_spec l :
  forall recursive p,
    In p (imagePaths recursive l) ->
    isImageFile p = true /\ (recursive = false -> In p (topLevelPaths l)).
Proof.
  induction l as [|q ec rest IHrest|q sub ec rest IHsub IHrest|what]
    using Listing_tree_ind; intros recursive p H; [| | |destruct H].
  - destruct H.
  - rewrite imagePaths_entry in H. cbn [topLevelPaths d_path In].
    apply in_app_or in H. destruct H as [H|H].
    + destruct (isImageFile q) eqn:E; [|destruct H].
      destruct H as [<-|[]]. auto.
    + cbn in H. destruct (IHrest _ _ H). auto.
  - rewrite imagePaths_entry in H. cbn [topLevelPaths d_path In].
    apply in_app_or in H. destruct H as [H|H].
    + destruct (isImageFile q) eqn:E; [|destruct H].
      destruct H as [<-|[]]. auto.
    + apply in_app_or in H. destruct H as [H|H].
      * destruct recursive; [|destruct H].
        destruct (IHsub _ _ H). split; [assumption | discriminate].
      * destruct (IHrest _ _ H). auto.
Qed.

(** X6.  A traversal decodes only entries of the listing whose extension
    is recognized, of its own level only when it is not recursive, and
    every file it encodes is placed directly in [outputDir] under the
    file name of such an entry: no other path is read or written, and
    no directory structure is kept. *)
Theorem processDirectory_reads_and_writes_confined :
  forall (l : Listing) (outputDir : string) (angle : double)
         (recursive verbose : bool) (s : Process),
  exists evs : list Event,
    trace (snd (processDirectory l outputDir angle recursive verbose s))
    = trace s ++ evs
    /\ (forall p, In (Imread p) evs ->
          In p (imagePaths recursive l) /\ isImageFile p = true
          /\ (recursive = false -> In p (topLevelPaths l)))
    /\ (forall q img ok, In (Imwrite q img ok) evs ->
          exists p, In p (imagePaths recursive l) /\ isImageFile p = true
                    /\ (recursive = false -> In p (topLevelPaths l))
                    /\ q = path_append outputDir (filename p)).
Proof.
  intros l outputDir angle recursive verbose s.
  destruct (processDirectory_events l outputDir angle recursive verbose s)
    as [evs [E F]].
  exists evs. split; [exact E|]. rewrite Forall_forall in F. split.
  - intros p H. specialize (F _ H). cbn in F.
    destruct (imagePaths_spec l recursive p F). auto.
  - intros q img ok H. specialize (F _ H). cbn in F.
    destruct F as (p & m & g & Hin & Hq & _).
    destruct (imagePaths_spec l recursive p Hin). exists p. auto.
Qed.

(** X7.  In a traversal without a reference image, whatever angle it is
    called with and whatever the estimates of earlier entries were, every
    picture encoded is a decoded picture rotated by the estimate made
    from that same picture: no angle is carried from one file into the
    output of another. *)
Theorem processDirectory_writes_own_estimates :
  forall (l : Listing) (outputDir : string) (angle : double)
         (recursive verbose : bool) (s : Process),
    referenceImagePath s = "" ->
    exists evs : list Event,
      trace (snd (processDirectory l outputDir angle recursive verbose s))
      = trace s ++ evs
      /\ (forall q img ok, In (Imwrite q img ok) evs ->
            exists m, Mat_empty m = false
                      /\ img = rotateImage m (determineRotationAngle m)).
Proof.
  intros l outputDir angle recursive verbose s Href.
  destruct (processDirectory_events l outputDir angle recursive verbose s)
    as [evs [E F]].
  exists evs. split; [exact E|]. rewrite Forall_forall in F.
  intros q img ok H. specialize (F _ H). cbn in F.
  destruct F as (p & m & g & _ & _ & Hm & Hi & Hw).
  unfold writeAngle in Hw. rewrite Href in Hw. cbn in Hw. subst g.
  exists m. auto.
Qed.

(* ----------------------------------------------------------------- *)
(** ** A run under a reference image that decodes *)

Lemma resolveAngle_reference_decodes (a : Args) (r : string) (s : Process) :
  reference a = Some r -> r <> "" -> Mat_empty (imread (disk s) r) = false ->
  resolveAngle a s
  = (determineRotationAngle (imread (disk s) r),
     mkProcess r (disk s)
       (trace s ++ Imread r
          :: (if verbose a
              then [Cout (AngleFromReference
                            (determineRotationAngle (imread (disk s) r)))]
              else []))).
Proof.
  intros Href Hr Hd. unfold resolveAngle, calculateReferenceAngle. run_unfold.
  rewrite Href. cbn. rewrite (eqb_empty_false _ Hr). cbn. rewrite Hd. cbn.
  destruct (verbose a); cbn; trace_norm; reflexivity.
Qed.

(** [dispatch] reads of the arguments only the paths and the two flags. *)
Lemma dispatch_ignores_angle_argument (a a' : Args) (g : double) (s : Process) :
  input a = input a' -> output a = output a' ->
  recursive a = recursive a' -> verbose a = verbose a' ->
  dispatch a g s = dispatch a' g s.
Proof.
  intros Hi Ho Hr Hv. unfold dispatch. now rewrite Hi, Ho, Hr, Hv.
Qed.

Lemma dispatch_rotates_by_its_angle (a : Args) (g : double) (s : Process) :
  referenceImagePath s <> "" -> emits (rotatedBy g) s (snd (dispatch a g s)).
Proof.
  intro Href.
  assert (D : forall l (st : Process),
             referenceImagePath st = referenceImagePath s ->
             emits (rotatedBy g) st
                   (snd (processDirectory l (output a) g (recursive a) (verbose a) st))).
  { intros l st Hst. eapply emits_weaken; [|apply processDirectory_events].
    intros [p|q img ok|m|m]; cbn; auto.
    intros (p & m & g' & _ & _ & Hm & Hi & Hw). exists m. split; [exact Hm|].
    unfold writeAngle in Hw. rewrite Hst, (eqb_empty_false _ Href) in Hw.
    now subst g'. }
  destruct (fs_is_directory (disk s) (input a)) eqn:Hdir.
  - rewrite (dispatch_directory_cases a g s Hdir).
    destruct (fs_exists (disk s) (output a)).
    + specialize (D (fs_directory_iterator (disk s) (input a)) s eq_refl).
      now destruct (processDirectory _ _ _ _ _ s).
    + destruct (fs_create_directories (disk s) (output a)) as [[[|]|why] d].
      * specialize (D (fs_directory_iterator d (input a))
                      (mkProcess (referenceImagePath s) d (trace s)) eq_refl).
        destruct (processDirectory _ _ _ _ _ _).
        destruct D as [evs [E F]]. exists evs. split; [exact E | exact F].
      * eapply emits_step; [reflexivity|]. repeat constructor.
      * eapply emits_step; [cbn; now rewrite app_nil_r | constructor].
  - rewrite (dispatch_single_cases a g s Hdir).
    rewrite (eqb_empty_false _ Href), andb_false_r.
    pose proof (processSingleImage_cases (input a) (output a) g (verbose a) s) as C.
    cbv zeta in C.
    destruct (processSingleImage (input a) (output a) g (verbose a) s) as [b s2].
    cbn [fst snd] in *.
    destruct C as [[Hz E]|[(Hz & Hd & Hf & _ & Ht)|[(Hz & Hd & Hr & Hf & _ & Ht)
       |[(Hz & Hd & Hr & Hw & Hf & Ht)|(Hz & Hd & Hr & Hw & Hf & Ht)]]]].
    + injection E as -> ->. apply emits_refl.
    + eapply emits_step; [exact Ht|]. repeat constructor.
    + eapply emits_step; [exact Ht|]. repeat constructor.
    + eapply emits_step; [exact Ht|]. constructor; [exact I|].
      constructor; [cbn; eexists; split; [exact Hd | reflexivity]|]. repeat constructor.
    + eapply emits_step; [exact Ht|]. constructor; [exact I|].
      constructor; [cbn; eexists; split; [exact Hd | reflexivity]|]. destruct (verbose a); repeat constructor.
Qed.

(** X8.  When the reference image decodes, its estimate is the angle of
    the whole run: [main] goes on with it from a state in which the
    reference was decoded once, the explicit angle argument has no effect
    on the run, and every picture encoded, in single-file mode or
    anywhere in the traversal, is a decoded picture rotated by that one
    estimate. *)
Theorem main_reference_estimate_is_the_only_angle :
  forall (a : Args) (r : string) (s : Process),
    reference a = Some r -> r <> "" -> Mat_empty (imread (disk s) r) = false ->
    let g := determineRotationAngle (imread (disk s) r) in
    let s1 := mkProcess r (disk s)
                (trace s ++ Imread r
                   :: (if verbose a then [Cout (AngleFromReference g)] else [])) in
    main (Some a) s = dispatch a g s1
    /\ (forall x : double,
           main (Some (mkArgs (input a) (output a) x (recursive a) (verbose a)
                              (detect a) (reference a))) s
           = main (Some a) s)
    /\ (exists evs : list Event,
           trace (snd (main (Some a) s)) = trace s1 ++ evs
           /\ forall q img ok, In (Imwrite q img ok) evs ->
                exists m, Mat_empty m = false /\ img = rotateImage m g).
Proof.
  intros a r s Href Hr Hd g s1.
  assert (E : main (Some a) s = dispatch a g s1).
  { unfold main, bind.
    now rewrite (resolveAngle_reference_decodes a r s Href Hr Hd). }
  split; [exact E|]. split.
  - intro x. rewrite E.
    set (ax := mkArgs (input a) (output a) x (recursive a) (verbose a)
                      (detect a) (reference a)).
    unfold main, bind.
    rewrite (resolveAngle_reference_decodes ax r s Href Hr Hd).
    now apply dispatch_ignores_angle_argument.
  - rewrite E.
    destruct (dispatch_rotates_by_its_angle a g s1 Hr) as [evs [Et F]].
    exists evs. split; [exact Et|]. rewrite Forall_forall in F.
    intros q img ok H. exact (F _ H).
Qed.

(* ----------------------------------------------------------------- *)
(** ** What a successful traversal has done *)

Lemma emits_keeps_events (Q : Event -> Prop) (s s' : Process) (e : Event) :
  emits Q s s' -> In e (trace s) -> In e (trace s').
Proof. intros [evs [E _]] H. rewrite E. apply in_or_app. now left. Qed.

Lemma processEntryImage_Some path outputDir angle verbose (s s1 : Process)
      (a' : double) :
  processEntryImage path outputDir angle verbose s = (Some a', s1) ->
  isImageFile path = true ->
  exists img,
    In (Imwrite (path_append outputDir (filename path)) img true) (trace s1).
Proof.
  unfold processEntryImage. intros H Himg. rewrite Himg in H. unfold bind in H.
  destruct (entryAngle path angle verbose s) as [g s0].
  pose proof (processSingleImage_cases
                path (path_append outputDir (filename path)) g verbose s0) as C.
  cbv zeta in C.
  destruct (processSingleImage _ _ g verbose s0) as [b s2]. cbn [fst snd] in *.
  destruct C as [[Hz E]|[(Hz & Hd & Hf & _ & Ht)|[(Hz & Hd & Hr & Hf & _ & Ht)
     |[(Hz & Hd & Hr & Hw & Hf & Ht)|(Hz & Hd & Hr & Hw & Hf & Ht)]]]];
    try (injection E as -> ->); try subst b; cbn in H; try discriminate H.
  exists (rotateImage (imread (disk s0) path) g).
  destruct verbose; cbn in H; injection H as _ <-; cbn [trace];
    rewrite Ht, ?in_app_iff; cbn [In]; intuition.
Qed.

(** X9.  When a traversal returns [true], every image entry of its level
    that the iterator came to (every entry up to the first increment that
    reported an error) has been encoded with success, under its file name
    in [outputDir]. *)
Theorem processDirectory_success_means_written :
  forall (l : Listing) (outputDir : string) (angle : double)
         (recursive verbose : bool) (s : Process),
    fst (processDirectory l outputDir angle recursive verbose s) = Returns true ->
    forall p, In p (reachedPaths l) -> isImageFile p = true ->
      exists img,
        In (Imwrite (path_append outputDir (filename p)) img true)
           (trace (snd (processDirectory l outputDir angle recursive verbose s))).
Proof.
  induction l as [|[q sub] ec rest IH|what];
    intros outputDir angle recursive verbose s H p Hin Himg.
  - destruct Hin.
  - rewrite processDirectory_entry in *. unfold bind_returned, bind in *.
    destruct (processEntryImage q outputDir angle verbose s) as [[a'|] s1] eqn:E;
      [|discriminate H].
    assert (K : forall e, In e (trace s1) ->
                  In e (trace (snd (descend processDirectory sub outputDir a'
                                            recursive verbose s1)))).
    { intros e He. rewrite descend_state.
      destruct sub as [subdir|]; [destruct recursive|]; try exact He.
      eapply emits_keeps_events; [apply processDirectory_events | exact He]. }
    destruct (descend processDirectory sub outputDir a' recursive verbose s1)
      as [[u|why] s2]; [|discriminate H].
    cbn [snd] in K. cbn [reachedPaths d_path In] in Hin.
    assert (Q : isImageFile q = true ->
                exists img,
                  In (Imwrite (path_append outputDir (filename q)) img true)
                     (trace s2)).
    { intro Hq. destruct (processEntryImage_Some _ _ _ _ _ _ _ E Hq) as [img Hi].
      exists img. now apply K. }
    destruct ec as [msg|].
    + destruct Hin as [<-|[]]. destruct (Q Himg) as [img Hi]. exists img.
      destruct verbose; [discriminate H | exact Hi].
    + destruct Hin as [<-|Hin].
      * destruct (Q Himg) as [img Hi]. exists img.
        eapply emits_keeps_events; [apply processDirectory_events | exact Hi].
      * now apply IH.
  - destruct Hin.
Qed.

(* ----------------------------------------------------------------- *)
(** ** Subdirectories without the recursive flag *)

(** X10.  Without the recursive flag a traversal never looks into a
    subdirectory: it is the traversal of the listing in which no entry is
    a directory, whatever the subdirectories hold. *)
Theorem processDirectory_not_recursive_ignores_subdirectories :
  forall (l : Listing) (outputDir : string) (angle : double) (verbose : bool)
         (s : Process),
    processDirectory l outputDir angle false verbose s
    = processDirectory (withoutSubdirectories l) outputDir angle false verbose s.
Proof.
  induction l as [|[q sub] ec rest IH|what]; intros outputDir angle verbose s.
  - reflexivity.
  - cbn [withoutSubdirectories]. rewrite !processDirectory_entry. unfold bind.
    destruct (processEntryImage q outputDir angle verbose s) as [[a'|] s1];
      [|reflexivity].
    destruct sub as [subdir|]; cbn; (destruct ec; [reflexivity | apply IH]).
  - reflexivity.
Qed.

(* ----------------------------------------------------------------- *)
(** ** A tree without image files *)

Lemma processDirectory_nothing_to_do :
  forall (l : Listing) (outputDir : string) (angle : double)
         (recursive verbose : bool) (s : Process),
    imagePaths recursive l = [] ->
    let r := processDirectory l outputDir angle recursive verbose s in
    snd r = s
    /\ fst r <> Returns false
    /\ (verbose = false -> opens recursive l = true -> fst r = Returns true).
Proof.
  intros l outputDir angle. cbv zeta.
  assert (step : forall p sub ec rest,
             (forall subdir, sub = Some subdir ->
                forall r v (st : Process), imagePaths r subdir = [] ->
                  snd (processDirectory subdir outputDir angle r v st) = st
                  /\ fst (processDirectory subdir outputDir angle r v st)
                     <> Returns false
                  /\ (v = false -> opens r subdir = true ->
                      fst (processDirectory subdir outputDir angle r v st)
                      = Returns true)) ->
             (forall r v (st : Process), imagePaths r rest = [] ->
                  snd (processDirectory rest outputDir angle r v st) = st
                  /\ fst (processDirectory rest outputDir angle r v st)
                     <> Returns false
                  /\ (v = false -> opens r rest = true ->
                      fst (processDirectory rest outputDir angle r v st)
                      = Returns true)) ->
             forall r v (s : Process),
               imagePaths r (LEntry (mkDirent p sub) ec rest) = [] ->
               let l := LEntry (mkDirent p sub) ec rest in
               snd (processDirectory l outputDir angle r v s) = s
               /\ fst (processDirectory l outputDir angle r v s) <> Returns false
               /\ (v = false -> opens r l = true ->
                   fst (processDirectory l outputDir angle r v s) = Returns true)).
  { intros p sub ec rest IHsub IHrest r v s H. cbv zeta.
    rewrite imagePaths_entry in H.
    apply app_eq_nil in H. destruct H as [Hp H].
    apply app_eq_nil in H. destruct H as [Hs Hr].
    assert (Himg : isImageFile p = false)
      by (destruct (isImageFile p); [discriminate Hp | reflexivity]).
    rewrite processDirectory_entry. unfold bind.
    rewrite (processEntryImage_skips _ _ _ _ _ Himg).
    unfold bind_returned, bind.
    assert (S2 : snd (descend processDirectory sub outputDir angle r v s) = s
                 /\ (v = false ->
                     match sub with
                     | Some subdir => if r then opens true subdir else true
                     | None => true
                     end = true ->
                     fst (descend processDirectory sub outputDir angle r v s)
                     = Returns tt)).
    { destruct sub as [subdir|]; [destruct r|]; try (now split).
      rewrite descend_recursive.
      destruct (IHsub subdir eq_refl true v s Hs) as (Hd & _ & Ht).
      destruct (processDirectory subdir outputDir angle true v s) as [[b|why] s'];
        cbn [fst snd outcome_map] in *; (split; [exact Hd|]);
        intros Hv Ho; [reflexivity | discriminate (Ht Hv Ho)]. }
    destruct (descend processDirectory sub outputDir angle r v s) as [[u|why] s2];
      cbn [fst snd] in S2; destruct S2 as [-> Sv].
    2:{ cbn. split; [reflexivity|]. split; [discriminate|].
        intros Hv Ho. cbn [opens] in Ho. apply andb_true_iff in Ho.
        discriminate (Sv Hv (proj1 Ho)). }
    destruct ec as [msg|].
    - destruct v; cbn; (split; [reflexivity|]); (split; [discriminate|]);
        intros; [discriminate | reflexivity].
    - destruct (IHrest r v s Hr) as (Hd & Hf & Ht).
      split; [exact Hd|]. split; [exact Hf|].
      intros Hv Ho. cbn [opens] in Ho. apply andb_true_iff in Ho.
      now apply Ht. }
  induction l as [|p ec rest IHrest|p sub ec rest IHsub IHrest|what]
    using Listing_tree_ind; intros recursive verbose s H.
  - cbn. repeat split; discriminate.
  - apply step; [discriminate | intros; now apply IHrest | exact H].
  - apply step; [|intros; now apply IHrest | exact H].
    intros subdir E. injection E as <-. intros. now apply IHsub.
  - cbn. repeat split; discriminate.
Qed.

(** X11.  When no entry the traversal can come to has a recognized
    extension (an empty directory among others), the traversal never
    returns [false], and whenever it returns, or ends by an exception, the
    state is the state it started in: nothing was decoded, encoded or
    printed.  It returns [true] when [verbose] is off and every directory
    it opens can be opened; otherwise it need not return (a subdirectory
    that cannot be opened throws; the warning of an iteration error is
    undefined behaviour). *)
Theorem processDirectory_without_images :
  forall (l : Listing) (outputDir : string) (angle : double)
         (recursive verbose : bool) (s : Process),
    imagePaths recursive l = [] ->
    let r := processDirectory l outputDir angle recursive verbose s in
    (fst r <> Aborts UndefinedBehaviour -> snd r = s)
    /\ fst r <> Returns false
    /\ (verbose = false -> opens recursive l = true ->
        fst r = Returns true /\ snd r = s).
Proof.
  intros l outputDir angle recursive verbose s H. cbv zeta.
  destruct (processDirectory_nothing_to_do l outputDir angle recursive verbose s H)
    as (Hs & Hf & Ht).
  split; [intros _; exact Hs|]. split; [exact Hf|].
  intros Hv Ho. split; [now apply Ht | exact Hs].
Qed.

(* ----------------------------------------------------------------- *)
(** ** [main]: the output directory, and the single file without an angle *)

Lemma resolveAngle_keeps_disk (a : Args) (s : Process) :
  disk (snd (resolveAngle a s)) = disk s.
Proof.
  unfold resolveAngle. run_unfold. cbn -[calculateReferenceAngle].
  destruct (String.eqb _ ""); cbn -[calculateReferenceAngle]; [reflexivity|].
  match goal with
  | |- context [calculateReferenceAngle ?p ?v ?st] =>
      destruct (calculateReferenceAngle_cases p v st) as [[_ C]|[_ C]]; rewrite C
  end; reflexivity.
Qed.

(** X12.  In directory mode, when the output directory is not there,
    what [main] does after the resolution of the angle is decided by
    [create_directories].  When it throws (the directory cannot be
    created), the exception leaves [main]: the process ends without a
    status, the diagnostic of line 271 is not printed and the input
    directory is not opened.  The diagnostic and the status [1] are for
    the one case in which it returns [false], a directory that is there
    after all.  When it returns [true], the run is the traversal on the
    disk with the new directory. *)
Theorem main_without_output_directory :
  forall (a : Args) (s : Process),
    fs_is_directory (disk s) (input a) = true ->
    fs_exists (disk s) (output a) = false ->
    let g := fst (resolveAngle a s) in
    let s1 := snd (resolveAngle a s) in
    let d := snd (fs_create_directories (disk s) (output a)) in
    let s2 := mkProcess (referenceImagePath s1) d (trace s1) in
    match fst (fs_create_directories (disk s) (output a)) with
    | Aborts why => main (Some a) s = (Aborts why, s2)
    | Returns false =>
        main (Some a) s
        = (Returns 1%Z,
           mkProcess (referenceImagePath s1) d
             (trace s1 ++ [Cerr (FailedToCreateOutputDirectory (output a))]))
    | Returns true =>
        main (Some a) s
        = (let (r, s') :=
             processDirectory (fs_directory_iterator d (input a)) (output a) g
                              (recursive a) (verbose a) s2 in
           (outcome_map Z.b2z r, s'))
    end.
Proof.
  intros a s Hdir Hex. cbv zeta.
  pose proof (resolveAngle_keeps_disk a s) as K.
  unfold main, bind. destruct (resolveAngle a s) as [g s1]. cbn [fst snd] in *.
  rewrite <- K in *. rewrite (dispatch_directory_cases a g s1 Hdir), Hex.
  now destruct (fs_create_directories (disk s1) (output a)) as [[[|]|why] d].
Qed.

(** X13.  In single-file mode with no reference image and the angle
    [0.0] (the default), the angle is estimated from the input file
    itself.  When the file does not decode, [main] returns [1] after the
    one diagnostic; when it decodes, the file is processed with its
    estimate, which has it decoded a second time; and when that estimate
    is [0.0], nothing is written, nothing more is printed and [main]
    returns [0]. *)
Theorem main_single_file_estimates_its_own_angle :
  forall (a : Args) (s : Process),
    reference a = None ->
    fs_is_directory (disk s) (input a) = false ->
    PrimFloat.eqb (angle a) 0%float = true ->
    let img := imread (disk s) (input a) in
    let g := determineRotationAngle img in
    let s1 := mkProcess "" (disk s)
                (trace s ++ Imread (input a)
                   :: (if verbose a then [Cout (AngleFromReference g)] else [])) in
    (Mat_empty img = true ->
     main (Some a) s
     = (Returns 1%Z,
        mkProcess "" (disk s)
          (trace s ++ [Imread (input a); Cerr (CouldNotOpenReference (input a))])))
    /\ (Mat_empty img = false ->
        main (Some a) s
        = (let (ok, s2) := processSingleImage (input a) (output a) g (verbose a) s1 in
           (Returns (Z.b2z ok), s2)))
    /\ (Mat_empty img = false -> PrimFloat.eqb g 0%float = true ->
        main (Some a) s = (Returns 0%Z, s1)).
Proof.
  intros a s Href Hdir Hz. cbv zeta.
  assert (E : main (Some a) s
              = dispatch a (angle a) (mkProcess "" (disk s) (trace s))).
  { unfold main, resolveAngle. run_unfold. rewrite Href. reflexivity. }
  assert (D : forall st : Process,
             referenceImagePath st = "" ->
             fs_is_directory (disk st) (input a) = false ->
             dispatch a (angle a) st
             = (let (r, s') := calculateReferenceAngle (input a) (verbose a) st in
                let (t_angle, successful) := r in
                if successful
                then let (ok, s2) := processSingleImage (input a) (output a) t_angle
                                                        (verbose a) s' in
                     (Returns (Z.b2z ok), s2)
                else (Returns 1%Z, s'))).
  { intros st Hr Hd. rewrite (dispatch_single_cases a (angle a) st Hd).
    now rewrite Hz, Hr. }
  rewrite E, (D (mkProcess "" (disk s) (trace s)) eq_refl Hdir).
  destruct (calculateReferenceAngle_cases
              (input a) (verbose a) (mkProcess "" (disk s) (trace s)))
    as [[Hd C]|[Hd C]]; cbn [disk referenceImagePath trace] in *; rewrite C.
  - split; [reflexivity|]. split; congruence.
  - split; [congruence|]. split; [reflexivity|].
    intros _ Hg. now rewrite (processSingleImage_zero _ _ _ _ _ Hg).
Qed.

(* ----------------------------------------------------------------- *)
(** ** The name of an output file *)

Lemma after_last_without (c : ascii) (t : list ascii) :
  existsb (Ascii.eqb c) t = false -> after_last c t = t.
Proof.
  induction t as [|a t IH]; [reflexivity|]. cbn. intro H.
  apply orb_false_iff in H. destruct H as [Ha Ht]. rewrite Ht.
  rewrite Ascii.eqb_sym, Ha. reflexivity.
Qed.

Lemma after_last_has_none (c : ascii) (s : list ascii) :
  existsb (Ascii.eqb c) (after_last c s) = false.
Proof.
  induction s as [|a s IH]; [reflexivity|]. cbn.
  destruct (existsb (Ascii.eqb c) s) eqn:E; [exact IH|].
  destruct (Ascii.eqb a c) eqn:Ea; [exact E|].
  cbn. rewrite Ascii.eqb_sym, Ea, E. reflexivity.
Qed.

Lemma after_last_app (c : ascii) (s t : list ascii) :
  existsb (Ascii.eqb c) t = false -> after_last c (s ++ c :: t) = t.
Proof.
  intro Ht. induction s as [|a s IH].
  - cbn. now rewrite Ht, Ascii.eqb_refl.
  - cbn [app after_last]. rewrite existsb_app. cbn [existsb].
    rewrite Ascii.eqb_refl. cbn [orb]. rewrite orb_true_r. exact IH.
Qed.

Lemma list_ascii_of_string_app (s t : string) :
  list_ascii_of_string (s ++ t) = list_ascii_of_string s ++ list_ascii_of_string t.
Proof. induction s as [|a s IH]; [reflexivity|]. cbn. now rewrite IH. Qed.

Lemma filename_path_append (dir p : string) :
  filename (path_append dir (filename p)) = filename p.
Proof.
  assert (N : existsb (Ascii.eqb slash) (list_ascii_of_string (filename p)) = false).
  { unfold filename. rewrite list_ascii_of_string_of_list_ascii.
    apply after_last_has_none. }
  unfold path_append.
  destruct (rev (list_ascii_of_string dir)) as [|c r] eqn:E.
  - unfold filename at 1. rewrite (after_last_without _ _ N).
    apply string_of_list_ascii_of_string.
  - assert (D : list_ascii_of_string dir = rev r ++ [c]).
    { rewrite <- (rev_involutive (list_ascii_of_string dir)), E. reflexivity. }
    destruct (Ascii.eqb c slash) eqn:Ec; unfold filename at 1.
    + apply Ascii.eqb_eq in Ec. subst c.
      rewrite list_ascii_of_string_app, D, <- app_assoc. cbn [app].
      rewrite (after_last_app _ _ _ N). apply string_of_list_ascii_of_string.
    + rewrite !list_ascii_of_string_app. cbn [list_ascii_of_string app].
      rewrite (after_last_app _ _ _ N). apply string_of_list_ascii_of_string.
Qed.

(** X14.  The path a traversal encodes an entry to has the entry's own
    file name, whatever the output directory is: so it has the entry's
    extension, it is again an image file by its name, and two entries
    with one file name, wherever they are in the tree, are encoded to one
    and the same path. *)
Theorem output_path_keeps_the_file_name :
  forall (outputDir p : string),
    let q := path_append outputDir (filename p) in
    filename q = filename p
    /\ extension q = extension p
    /\ isImageFile q = isImageFile p
    /\ (forall p', filename p' = filename p ->
          path_append outputDir (filename p') = q).
Proof.
  intros outputDir p q. subst q.
  pose proof (filename_path_append outputDir p) as F.
  assert (E : extension (path_append outputDir (filename p)) = extension p)
    by (unfold extension; now rewrite F).
  split; [exact F|]. split; [exact E|]. split.
  - unfold isImageFile. now rewrite E.
  - intros p' H. now rewrite H.
Qed.

(* ----------------------------------------------------------------- *)
(** ** The estimate and the place of the segments *)

Lemma theta_of_shift (dx dy : Z) (line : Vec4i) :
  theta_of (shift dx dy line) = theta_of line.
Proof.
  unfold theta_of, shift. cbn [v0 v1 v2 v3].
  replace (v3 line + dy - (v1 line + dy))%Z with (v3 line - v1 line)%Z by lia.
  replace (v2 line + dx - (v0 line + dx))%Z with (v2 line - v0 line)%Z by lia.
  reflexivity.
Qed.

Lemma fold_accumulate_shift (dx dy : Z) (lines : list Vec4i) :
  forall acc,
    fold_left accumulate (map (shift dx dy) lines) acc
    = fold_left accumulate lines acc.
Proof.
  induction lines as [|line lines IH]; intro acc; [reflexivity|].
  cbn [map fold_left]. rewrite IH. f_equal.
  destruct acc as [g n]. unfold accumulate. now rewrite theta_of_shift.
Qed.

(** X15.  The estimate depends on the detected segments only through the
    differences of their end points: two pictures in which the same
    segments are detected, moved as a whole by any [(dx, dy)], get the
    same estimate. *)
Theorem determineRotationAngle_ignores_position :
  forall (src src' : Mat) (dx dy : Z),
    detectedSegments src' = map (shift dx dy) (detectedSegments src) ->
    determineRotationAngle src' = determineRotationAngle src.
Proof.
  intros src src' dx dy H. unfold determineRotationAngle.
  fold (detectedSegments src) (detectedSegments src').
  now rewrite H, fold_accumulate_shift.
Qed.

(* ----------------------------------------------------------------- *)
(** ** The reference path during a run *)

Lemma dispatch_keeps_reference (a : Args) (g : double) (s : Process) :
  referenceImagePath (snd (dispatch a g s)) = referenceImagePath s.
Proof.
  assert (D : forall l (st : Process),
             referenceImagePath
               (snd (let (r, s') := processDirectory l (output a) g (recursive a)
                                                     (verbose a) st in
                     (outcome_map Z.b2z r, s')))
             = referenceImagePath st).
  { intros l st.
    pose proof (processDirectory_keeps_reference
                  l (output a) g (recursive a) (verbose a) st) as K.
    now destruct (processDirectory _ _ _ _ _ st). }
  assert (P : forall x (st : Process),
             referenceImagePath
               (snd (let (ok, s2) := processSingleImage (input a) (output a) x
                                                        (verbose a) st in
                     (Returns (Z.b2z ok), s2)))
             = referenceImagePath st).
  { intros x st.
    pose proof (processSingleImage_keeps_reference
                  (input a) (output a) x (verbose a) st) as K.
    now destruct (processSingleImage _ _ _ _ st). }
  destruct (fs_is_directory (disk s) (input a)) eqn:Hdir.
  - rewrite (dispatch_directory_cases a g s Hdir).
    destruct (fs_exists (disk s) (output a)); [apply D|].
    destruct (fs_create_directories (disk s) (output a)) as [[[|]|why] d];
      try reflexivity.
    apply (D (fs_directory_iterator d (input a))
             (mkProcess (referenceImagePath s) d (trace s))).
  - rewrite (dispatch_single_cases a g s Hdir).
    destruct (PrimFloat.eqb g 0%float && String.eqb (referenceImagePath s) "");
      [|apply P].
    destruct (calculateReferenceAngle_cases (input a) (verbose a) s)
      as [[_ C]|[_ C]]; rewrite C; [reflexivity|].
    apply (P _ (mkProcess (referenceImagePath s) (disk s) _)).
Qed.

(** X16.  The file-level variable [referenceImagePath] is written once,
    at the start of [main], from the arguments: whatever it held before
    and whatever the run does, at the end it holds the reference argument,
    or the empty string when there was none.  No step of a run changes
    the way angles are resolved. *)
Theorem main_sets_the_reference_path_once :
  forall (a : Args) (s : Process),
    referenceImagePath (snd (main (Some a) s))
    = match reference a with Some r => r | None => "" end.
Proof.
  intros a s. unfold main, bind.
  assert (R : referenceImagePath (snd (resolveAngle a s))
              = match reference a with Some r => r | None => "" end).
  { unfold resolveAngle. run_unfold. cbn -[calculateReferenceAngle].
    destruct (String.eqb _ ""); cbn -[calculateReferenceAngle]; [reflexivity|].
    match goal with
    | |- context [calculateReferenceAngle ?p ?v ?st] =>
        destruct (calculateReferenceAngle_cases p v st) as [[_ C]|[_ C]]; rewrite C
    end; reflexivity. }
  destruct (resolveAngle a s) as [g s1]. cbn [snd] in R.
  now rewrite dispatch_keeps_reference.
Qed.

(* ----------------------------------------------------------------- *)
(** ** A traversal in two parts *)

Lemma processEntryImage_with_reference_angle path outputDir angle verbose
      (s s1 : Process) (a' : double) :
  referenceImagePath s <> "" ->
  processEntryImage path outputDir angle verbose s = (Some a', s1) ->
  a' = angle /\ referenceImagePath s1 <> "".
Proof.
  intros Href E.
  pose proof (processEntryImage_events path outputDir angle verbose s) as H.
  cbv zeta in H. rewrite E in H. cbn [fst snd] in H.
  destruct H as (Hr & _ & Ha). split; [now apply Ha | congruence].
Qed.

(** X17.  Under a reference image, the traversal of a listing in two
    parts, the first read without iteration error, is the traversal of the
    first part followed, when that one returned [true], by the traversal
    of the second part from the state it left; when the first part
    returned [false], or did not return, that is the result. *)
Theorem processDirectory_of_two_parts :
  forall (l1 l2 : Listing) (outputDir : string) (angle : double)
         (recursive verbose : bool) (s : Process),
    referenceImagePath s <> "" ->
    errorFree l1 = true ->
    processDirectory (l1 +++ l2) outputDir angle recursive verbose s
    = (let (r, s1) := processDirectory l1 outputDir angle recursive verbose s in
       match r with
       | Returns true => processDirectory l2 outputDir angle recursive verbose s1
       | Returns false | Aborts _ => (r, s1)
       end).
Proof.
  induction l1 as [|[q sub] ec rest IH|what];
    intros l2 outputDir angle recursive verbose s Href Herr.
  - reflexivity.
  - cbn [errorFree] in Herr. destruct ec as [msg|]; [discriminate Herr|].
    cbn [lapp]. rewrite !processDirectory_entry. unfold bind_returned, bind.
    destruct (processEntryImage q outputDir angle verbose s) as [[a'|] s1] eqn:E;
      [|reflexivity].
    destruct (processEntryImage_with_reference_angle _ _ _ _ _ _ _ Href E)
      as [-> Hr1].
    assert (K : referenceImagePath
                  (snd (descend processDirectory sub outputDir angle
                                recursive verbose s1)) <> "").
    { rewrite descend_state.
      destruct sub as [subdir|]; [destruct recursive|]; try exact Hr1.
      now rewrite processDirectory_keeps_reference. }
    destruct (descend processDirectory sub outputDir angle recursive verbose s1)
      as [[u|why] s2]; [|reflexivity].
    cbn [snd] in K. now apply IH.
  - reflexivity.
Qed.

(* ----------------------------------------------------------------- *)
(** ** What a successful traversal prints *)

Lemma processEntryImage_quiet path outputDir angle (s s1 : Process) (a' : double) :
  processEntryImage path outputDir angle false s = (Some a', s1) ->
  emits isIO s s1.
Proof.
  unfold processEntryImage.
  destruct (isImageFile path).
  2:{ cbn. intro H. injection H as _ <-. apply emits_refl. }
  unfold bind, entryAngle, bind, get_referenceImagePath.
  assert (P : forall g (s0 : Process),
             emits isIO s s0 ->
             (let (ok, s') := processSingleImage
                                path (path_append outputDir (filename path))
                                g false s0 in
              (if negb ok
               then bind (cerr (FailedToProcess path)) (fun _ => ret None)
               else bind (when false (cout (Processed path)))
                         (fun _ => ret (Some g))) s') = (Some a', s1) ->
             emits isIO s s1).
  { intros g s0 E0 H.
    pose proof (processSingleImage_cases
                  path (path_append outputDir (filename path)) g false s0) as C.
    cbv zeta in C.
    destruct (processSingleImage _ _ g false s0) as [b s2]. cbn [fst snd] in *.
    destruct C as [[Hz E]|[(Hz & Hd & Hf & _ & Ht)|[(Hz & Hd & Hr & Hf & _ & Ht)
       |[(Hz & Hd & Hr & Hw & Hf & Ht)|(Hz & Hd & Hr & Hw & Hf & Ht)]]]];
      try (injection E as -> ->); try subst b; cbn in H; try discriminate H.
    injection H as _ <-. eapply emits_trans; [exact E0|].
    eapply emits_step; [exact Ht|]. repeat constructor. }
  destruct (String.eqb (referenceImagePath s) "").
  - destruct (calculateReferenceAngle_cases path false s) as [[Hd C]|[Hd C]];
      rewrite C; cbn -[processSingleImage].
    + intro H.
      pose proof (processSingleImage_cases
                    path (path_append outputDir (filename path)) angle false
                    (mkProcess (referenceImagePath s) (disk s)
                       (trace s ++ [Imread path;
                                    Cerr (CouldNotOpenReference path)]))) as C2.
      cbv zeta in C2. cbn [disk] in C2.
      destruct (processSingleImage _ _ angle false _) as [b s2].
      cbn [fst snd] in *.
      destruct C2 as [[Hz E]|[(Hz & Hd2 & Hf & _)|[(Hz & Hd2 & _)
         |[(Hz & Hd2 & _)|(Hz & Hd2 & _)]]]];
        try congruence;
        try (injection E as -> ->); try subst b; cbn in H; discriminate H.
    + apply P. eapply emits_step; [reflexivity|]. repeat constructor.
  - cbn -[processSingleImage]. apply P. apply emits_refl.
Qed.

(** X18.  Without [verbose] and without the recursive flag, a traversal
    that returns [true] has printed nothing at all: its events are
    decodes and encodes only.  (With the recursive flag the diagnostics of
    a failure below the level are printed although the call returns
    [true].) *)
Theorem processDirectory_quiet_success :
  forall (l : Listing) (outputDir : string) (angle : double) (s : Process),
    fst (processDirectory l outputDir angle false false s) = Returns true ->
    emits isIO s (snd (processDirectory l outputDir angle false false s)).
Proof.
  induction l as [|[q sub] ec rest IH|what]; intros outputDir angle s H.
  - apply emits_refl.
  - rewrite processDirectory_entry in *. unfold bind in *.
    destruct (processEntryImage q outputDir angle false s) as [[a'|] s1] eqn:E;
      [|discriminate H].
    pose proof (processEntryImage_quiet _ _ _ _ _ _ E) as Q.
    destruct sub as [subdir|]; cbn in *;
      (destruct ec as [msg|]; cbn in *;
       [exact Q | eapply emits_trans; [exact Q | now apply IH]]).
  - discriminate H.
Qed.

End Properties.

(* ================================================================= *)
(** * Runs on the concrete platform *)

#[local] Existing Instance Sample.opencv.
#[local] Existing Instance Sample.platform.

Import Sample.

(** C1.  A single-file run that succeeds exits with status [1], and one
    whose file does not decode exits with status [0]: the [bool] of
    [processSingleImage] is what [main] returns. *)
Lemma main_exit_status_is_the_bool :
  run_main rotate_90 one_file
  = (Returns 1%Z,
     mkProcess "" (mkDisk [("out.png", rotateImage blank 90%float); ("in.png", blank)] [])
               [Imread "in.png"; Imwrite "out.png" (rotateImage blank 90%float) true])
  /\ run_main rotate_90 (mkDisk [] [])
     = (Returns 0%Z,
        mkProcess "" (mkDisk [] [])
                  [Imread "in.png"; Cerr (CouldNotOpenImage "in.png")]).
Proof. split; vm_compute; reflexivity. Qed.

(** C2, the claim as stated fails: the reference image does not decode,
    and yet the input file is processed, rotated by the explicit angle. *)
Lemma reference_failure_does_not_stop_the_run :
  Mat_empty (imread one_file "ref.png") = true
  /\ run_main rotate_90_ref one_file
     = (Returns 1%Z,
        mkProcess "ref.png"
          (mkDisk [("out.png", rotateImage blank 90%float); ("in.png", blank)] [])
          [Imread "ref.png"; Cerr (CouldNotOpenReference "ref.png");
           Imread "in.png"; Imwrite "out.png" (rotateImage blank 90%float) true]).
Proof. split; vm_compute; reflexivity. Qed.

(** The amended C2 on the same run: the reference image does not decode
    and the file is processed with the explicit angle. *)
Lemma explicit_angle_kept_on_one_file :
  reference rotate_90_ref = Some "ref.png"
  /\ "ref.png" <> ""
  /\ Mat_empty (imread one_file "ref.png") = true
  /\ main (Some rotate_90_ref) (start one_file)
     = (let (ok, s2) :=
          processSingleImage "in.png" "out.png" 90%float false
            (mkProcess "ref.png" one_file
               [Imread "ref.png"; Cerr (CouldNotOpenReference "ref.png")]) in
        (Returns (Z.b2z ok), s2)).
Proof.
  assert (N : "ref.png" <> "") by discriminate.
  split; [reflexivity|]. split; [exact N|]. split; [reflexivity|].
  exact (proj1 (proj2 (main_keeps_explicit_angle_when_reference_fails
                         rotate_90_ref "ref.png" (start one_file)
                         eq_refl N eq_refl)) eq_refl).
Defined.

(** C3.  In directory mode without a reference image the explicit angle
    is not what is applied.  With [-a 90] and a picture in which no
    segment is found, the estimate [0.0] replaces [90]: nothing is
    written and the traversal fails.  With [-a 45] and a picture whose
    estimate is [90], the picture is rotated by [90]. *)
Lemma explicit_angle_overridden_in_directory_mode :
  run_main (album_args 90%float false) (album blank)
  = (Returns 0%Z,
     mkProcess "" (album blank)
               [Imread "photos/a.png"; Cerr (FailedToProcess "photos/a.png")])
  /\ run_main (album_args 45%float true) (album upright)
     = (Returns 1%Z,
        mkProcess ""
          (mkDisk (("out/a.png", rotateImage upright 90%float) :: files (album upright))
                  (dirs (album upright)))
          [Imread "photos/a.png"; Cout (AngleFromReference 90%float);
           Imread "photos/a.png";
           Imwrite "out/a.png" (rotateImage upright 90%float) true;
           Cout (RotatedAndSaved "out/a.png"); Cout (Processed "photos/a.png")])
  /\ rotateImage upright 90%float <> rotateImage upright 45%float.
Proof. repeat split; try (vm_compute; reflexivity). vm_compute. discriminate. Qed.

(** C4 at [360.0]: the file is decoded and an output is written. *)
Lemma full_turn_is_processed :
  PrimFloat.eqb 360%float 0%float = false
  /\ processSingleImage "in.png" "out.png" 360%float false (start one_file)
     = (true,
        mkProcess "" (mkDisk [("out.png", blank); ("in.png", blank)] [])
                  [Imread "in.png"; Imwrite "out.png" blank true]).
Proof.
  split; [reflexivity|].
  exact (proj2 (proj1 (proj2 (processSingleImage_short_circuits_exactly_at_zero
                                "in.png" "out.png" 360%float false (start one_file)))
                      eq_refl)
               eq_refl eq_refl eq_refl).
Defined.



(** C6 on a picture in which no segment is detected. *)
Lemma blank_picture_estimates_zero :
  detectedSegments blank = [] /\ determineRotationAngle blank = 0%float.
Proof.
  split; [reflexivity|].
  exact (proj2 (determineRotationAngle_is_mean_orientation blank) eq_refl).
Defined.



(** C8.  When the increment that leaves ["notes.txt"] reports an error,
    the traversal is over: ["b.png"], the next entry of the directory, is
    never read, and the call returns [true].  Read without the error, the
    same directory has ["b.png"] processed. *)
Lemma iteration_error_ends_the_traversal :
  processDirectory (listing_of (Some "Input/output error")) "out" 90%float
                   false false (under_reference b_disk)
  = (Returns true, under_reference b_disk)
  /\ processDirectory (listing_of None) "out" 90%float
                      false false (under_reference b_disk)
     = (Returns true,
        mkProcess "ref.png"
          (mkDisk [("out/b.png", rotateImage blank 90%float); ("photos/b.png", blank)] [])
          [Imread "photos/b.png"; Imwrite "out/b.png" (rotateImage blank 90%float) true]).
Proof. split; vm_compute; reflexivity. Qed.

(** C9 on a listing whose second picture does not decode: the first is
    written, the traversal returns [false] at the second, and the picture
    after it is never read. *)
Lemma undecodable_picture_aborts_the_traversal :
  loopThrough good_after "out" 90%float false false (under_reference good_disk)
  = (Returns (Some 90%float), good_done)
  /\ isImageFile "photos/bad.png" = true
  /\ entryAngle "photos/bad.png" 90%float false good_done = (90%float, good_done)
  /\ processSingleImage "photos/bad.png" "out/bad.png" 90%float false good_done
     = (false, bad_undecoded)
  /\ processDirectory (good_after +++ bad_first +++ ok_after) "out" 90%float
                      false false (under_reference good_disk)
     = (Returns false,
        mkProcess "ref.png" (disk good_done)
          (trace bad_undecoded ++ [Cerr (FailedToProcess "photos/bad.png")])).
Proof.
  split; [reflexivity|]. split; [reflexivity|]. split; [reflexivity|].
  split; [reflexivity|].
  exact (proj1 processDirectory_aborts_at_first_failure
               good_after "photos/bad.png" None None ok_after "out" 90%float
               false false (under_reference good_disk) good_done good_done
               bad_undecoded 90%float 90%float
               eq_refl eq_refl eq_refl eq_refl).
Defined.

(** C10 on two runs that differ in [--detect] only. *)
Lemma detect_changes_nothing_on_one_file :
  run_main (mkArgs "in.png" "out.png" 90%float false false true None) one_file
  = run_main rotate_90 one_file.
Proof.
  exact (main_ignores_detect
           (mkArgs "in.png" "out.png" 90%float false false true None) rotate_90
           (start one_file) eq_refl eq_refl eq_refl eq_refl eq_refl eq_refl).
Defined.

(** X1 on the successful single-file run. *)
Lemma exit_status_of_a_successful_run :
  reference rotate_90 = None
  /\ fs_is_directory one_file "in.png" = false
  /\ PrimFloat.eqb 90%float 0%float = false
  /\ main (Some rotate_90) (start one_file)
     = (let (ok, s') := processSingleImage "in.png" "out.png" 90%float false
                                           (start one_file) in
        (Returns (Z.b2z ok), s')).
Proof.
  split; [reflexivity|]. split; [reflexivity|]. split; [reflexivity|].
  exact (proj1 (main_returns_the_bool_of_processing rotate_90 (start one_file)
                                                    eq_refl)
               eq_refl eq_refl).
Defined.

(** X2 on a picture whose estimate is [90]: called with [45] or with [90],
    the traversal is the same. *)
Lemma estimate_replaces_the_angle :
  isImageFile "photos/a.png" = true
  /\ Mat_empty (imread (album upright) "photos/a.png") = false
  /\ fst (entryAngle "photos/a.png" 45%float false (start (album upright)))
     = 90%float
  /\ processDirectory (LEntry (mkDirent "photos/a.png" None) None LEnd)
                      "out" 45%float false false (start (album upright))
     = processDirectory (LEntry (mkDirent "photos/a.png" None) None LEnd)
                        "out" 90%float false false (start (album upright)).
Proof.
  split; [reflexivity|]. split; [reflexivity|].
  exact (processDirectory_ignores_angle_without_reference
           "photos/a.png" None None LEnd "out" 45%float 90%float false false
           (start (album upright)) eq_refl eq_refl eq_refl).
Defined.

(** X3 on the listing that is interrupted after ["notes.txt"], verbose:
    the run comes to the warning and its behaviour is undefined. *)
Lemma error_after_notes_ends_the_listing :
  isImageFile "photos/notes.txt" = false
  /\ processDirectory (listing_of (Some "Input/output error")) "out" 90%float
                      false true (under_reference b_disk)
     = (Aborts UndefinedBehaviour, under_reference b_disk).
Proof.
  split; [reflexivity|].
  exact (processDirectory_stops_at_iteration_error
           "photos/notes.txt" "Input/output error"
           (LEntry (mkDirent "photos/b.png" None) None LEnd)
           "out" 90%float false true (under_reference b_disk) eq_refl).
Defined.

(* ================================================================= *)
(** * Runs on the concrete platform, continued *)

(** X7 on the album whose picture estimates [90], traversed with [45]. *)
Lemma album_written_with_its_estimate :
  referenceImagePath (start (album upright)) = ""
  /\ exists evs : list Event,
      trace (snd (processDirectory
                    (LEntry (mkDirent "photos/a.png" None) None LEnd)
                    "out" 45%float false false (start (album upright))))
      = trace (start (album upright)) ++ evs
      /\ (forall q img ok, In (Imwrite q img ok) evs ->
            exists m, Mat_empty m = false
                      /\ img = rotateImage m (determineRotationAngle m)).
Proof.
  split; [reflexivity|].
  exact (processDirectory_writes_own_estimates
           (LEntry (mkDirent "photos/a.png" None) None LEnd)
           "out" 45%float false false (start (album upright)) eq_refl).
Defined.

(** X8 on a run with [-a 45] and a reference picture that estimates [90]:
    the run goes on with [90]. *)
Lemma reference_estimate_replaces_45 :
  reference rotate_45_ref = Some "ref.png"
  /\ "ref.png" <> ""
  /\ Mat_empty (imread with_reference "ref.png") = false
  /\ main (Some rotate_45_ref) (start with_reference)
     = dispatch rotate_45_ref 90%float
                (mkProcess "ref.png" with_reference [Imread "ref.png"]).
Proof.
  assert (N : "ref.png" <> "") by discriminate.
  split; [reflexivity|]. split; [exact N|]. split; [reflexivity|].
  exact (proj1 (main_reference_estimate_is_the_only_angle
                  rotate_45_ref "ref.png" (start with_reference)
                  eq_refl N eq_refl)).
Defined.

(** X9 on the listing read without error: ["photos/b.png"] was written. *)
Lemma success_has_written_b :
  fst (processDirectory (listing_of None) "out" 90%float false false
                        (under_reference b_disk)) = Returns true
  /\ In "photos/b.png" (reachedPaths (listing_of None))
  /\ isImageFile "photos/b.png" = true
  /\ exists img,
      In (Imwrite "out/b.png" img true)
         (trace (snd (processDirectory (listing_of None) "out" 90%float false false
                                       (under_reference b_disk)))).
Proof.
  split; [reflexivity|]. split; [right; left; reflexivity|].
  split; [reflexivity|].
  exact (processDirectory_success_means_written
           (listing_of None) "out" 90%float false false (under_reference b_disk)
           eq_refl "photos/b.png" (or_intror (or_introl eq_refl)) eq_refl).
Defined.

(** X11 on a listing without image file, recursive and not verbose. *)
Lemma notes_only_is_left_alone :
  imagePaths true notes_only = []
  /\ opens true notes_only = true
  /\ fst (processDirectory notes_only "out" 90%float true false (start b_disk))
     = Returns true
  /\ snd (processDirectory notes_only "out" 90%float true false (start b_disk))
     = start b_disk.
Proof.
  split; [reflexivity|]. split; [reflexivity|].
  pose proof (processDirectory_without_images
                notes_only "out" 90%float true false (start b_disk) eq_refl) as H.
  cbv zeta in H. exact (proj2 (proj2 H) eq_refl eq_refl).
Defined.

(** X12 on a run whose output directory cannot be created: the run ends
    by the exception, nothing printed. *)
Lemma no_output_directory_ends_the_run :
  fs_is_directory (album blank) "photos" = true
  /\ fs_exists (album blank) "" = false
  /\ main (Some no_output_args) (start (album blank))
     = (Aborts (UncaughtException "cannot create directories"),
        start (album blank)).
Proof.
  split; [reflexivity|]. split; [reflexivity|].
  exact (main_without_output_directory
           no_output_args (start (album blank)) eq_refl eq_refl).
Defined.

(** X13 on a picture without a segment: the estimate is [0.0], nothing is
    written and the run exits with [0]. *)
Lemma blank_input_without_angle_exits_with_0 :
  reference estimate_args = None
  /\ fs_is_directory one_file "in.png" = false
  /\ PrimFloat.eqb 0%float 0%float = true
  /\ Mat_empty (imread one_file "in.png") = false
  /\ PrimFloat.eqb (determineRotationAngle (imread one_file "in.png")) 0%float = true
  /\ main (Some estimate_args) (start one_file)
     = (Returns 0%Z, mkProcess "" one_file [Imread "in.png"]).
Proof.
  repeat (split; [reflexivity|]).
  exact (proj2 (proj2 (main_single_file_estimates_its_own_angle
                         estimate_args (start one_file) eq_refl eq_refl eq_refl))
               eq_refl eq_refl).
Defined.

(** X15 on a picture and the same picture with its segment moved. *)
Lemma moved_segment_same_estimate :
  detectedSegments moved = map (shift 5 7) (detectedSegments upright)
  /\ determineRotationAngle moved = determineRotationAngle upright.
Proof.
  split; [reflexivity|].
  exact (determineRotationAngle_ignores_position upright moved 5 7 eq_refl).
Defined.

(** X17 on the listing [good_after +++ bad_first]: both parts are
    traversed. *)
Lemma two_parts_one_after_the_other :
  referenceImagePath (under_reference good_disk) <> ""
  /\ errorFree good_after = true
  /\ processDirectory (good_after +++ bad_first) "out" 90%float false false
                      (under_reference good_disk)
     = (let (r, s1) := processDirectory good_after "out" 90%float false false
                                        (under_reference good_disk) in
        match r with
        | Returns true => processDirectory bad_first "out" 90%float false false s1
        | Returns false | Aborts _ => (r, s1)
        end).
Proof.
  assert (N : referenceImagePath (under_reference good_disk) <> "")
    by discriminate.
  split; [exact N|]. split; [reflexivity|].
  exact (processDirectory_of_two_parts
           good_after bad_first "out" 90%float false false
           (under_reference good_disk) N eq_refl).
Defined.

(** X18 on the listing read without error, under the reference path. *)
Lemma success_without_verbose_is_silent :
  fst (processDirectory (listing_of None) "out" 90%float false false
                        (under_reference b_disk)) = Returns true
  /\ emits isIO (under_reference b_disk)
           (snd (processDirectory (listing_of None) "out" 90%float false false
                                  (under_reference b_disk))).
Proof.
  split; [reflexivity|].
  exact (processDirectory_quiet_success
           (listing_of None) "out" 90%float (under_reference b_disk) eq_refl).
Defined.
